(** * Benchmark tooling of foldhash: extraction and aggregation of results

    A shallow embedding of [tools/extract-bench-results.py] (the Extractor)
    and [tools/format-bench-results.py] (the Aggregator), with the
    properties of their specification stated and proved over it.

    Numbers.  The scripts compute on Python and polars floats.  Latencies
    are modelled as exact rationals ([Q]); numeric equality is [Qeq]
    ([==]), the counterpart of Python's [==].  Rounding is not modelled.
    The double-precision logarithm, mean and exponential of the geometric
    mean are not modelled either: they are a parameter of the
    Aggregator. *)

From Stdlib Require Import List String Ascii Bool Arith ZArith QArith Lia.
From Stdlib Require Import Permutation Sorted.
From Stdlib Require Import Lqa.
Import ListNotations.

Local Open Scope string_scope.
Local Open Scope Q_scope.

(** ** Python built-ins used by the scripts *)

Module Py.

(** Exceptions the scripts can raise on parsed input: the two Python ones
    of the Extractor and polars' [ComputeError], [InvalidOperationError]
    and [NoDataError] of the Aggregator. *)
Inductive exn : Type :=
| ZeroDivisionError
| IndexError
| ComputeError
| InvalidOperationError
| NoDataError.

Inductive result (A : Type) : Type :=
| Ok (a : A)
| Raise (e : exn).
Arguments Ok {A} a.
Arguments Raise {A} e.

Definition bind {A B : Type} (m : result A) (k : A -> result B) : result B :=
  match m with
  | Ok a => k a
  | Raise e => Raise e
  end.

Notation "x <- m ;; k" := (bind m (fun x => k))
  (at level 61, m at next level, right associativity).

(** [[f x for x in l]] where [f] may raise: elements are evaluated left to
    right and the first exception aborts the comprehension. *)
Fixpoint comprehension {A B : Type} (f : A -> result B) (l : list A)
  : result (list B) :=
  match l with
  | [] => Ok []
  | x :: l' => y <- f x ;; ys <- comprehension f l' ;; Ok (y :: ys)
  end.

(** [t / n]: true division, raising on a zero divisor. *)
Definition truediv (t n : Q) : result Q :=
  if Qeq_bool n 0 then Raise ZeroDivisionError else Ok (t / n).

(** [a < b] on numbers. *)
Definition lt (a b : Q) : bool := negb (Qle_bool b a).

(** [sorted(l)]: a stable ascending sort that compares with [<] only.
    [insort x l] puts [x] after the elements that are smaller and before
    the first one that is not, so equal elements keep their input order. *)
Fixpoint insort (x : Q) (l : list Q) : list Q :=
  match l with
  | [] => [x]
  | y :: l' => if lt y x then y :: insort x l' else x :: y :: l'
  end.

Fixpoint sorted (l : list Q) : list Q :=
  match l with
  | [] => []
  | x :: l' => insort x (sorted l')
  end.

(** [l[i]] for a non-negative index. *)
Definition getitem {A : Type} (l : list A) (i : nat) : result A :=
  match nth_error l i with
  | Some x => Ok x
  | None => Raise IndexError
  end.

(** [s.partition(sep)] restricted to the case where [sep] occurs: the text
    before the first occurrence of the character [sep] and the text after. *)
Fixpoint cut (sep : ascii) (s : string) : option (string * string) :=
  match s with
  | EmptyString => None
  | String c r =>
      if Ascii.eqb c sep then Some (EmptyString, r)
      else match cut sep r with
           | Some (a, b) => Some (String c a, b)
           | None => None
           end
  end.

(** [s.split(sep, maxsplit)] for a one-character separator and
    [maxsplit >= 0]: at most [maxsplit] cuts, leftmost first; the
    remainder is the last element, untouched. *)
Fixpoint split (sep : ascii) (maxsplit : nat) (s : string) : list string :=
  match maxsplit with
  | O => [s]
  | S m =>
      match cut sep s with
      | Some (a, b) => a :: split sep m b
      | None => [s]
      end
  end.

(** [sep.join(l)]. *)
Definition join (sep : string) (l : list string) : string :=
  String.concat sep l.

(** Number of occurrences of a character in a string. *)
Fixpoint count_char (c : ascii) (s : string) : nat :=
  match s with
  | EmptyString => O
  | String d r => (if Ascii.eqb d c then 1 else 0) + count_char c r
  end.

End Py.

Import Py.

(** ** The Extractor: [tools/extract-bench-results.py] *)

Module Extractor.

(** The parsed content of one configuration's two JSON documents:
    [benchmark.json]'s [function_id] and [sample.json]'s [times] and
    [iters]. *)
Record artifact : Type := {
  function_id : string;
  times : list Q;
  iters : list Q
}.

(** [sorted([t / n for t, n in zip(samples["times"], samples["iters"])])] *)
Definition sample_times (times iters : list Q) : result (list Q) :=
  l <- comprehension (fun tn => truediv (fst tn) (snd tn)) (combine times iters) ;;
  Ok (sorted l).

(** [robust = sample_times[len(sample_times) // 10]] *)
Definition robust (times iters : list Q) : result Q :=
  st <- sample_times times iters ;;
  getitem st (List.length st / 10)%nat.

Section Rows.

(** [str(robust)]: the decimal rendering of a float, left abstract. *)
Variable str : Q -> string.

Definition header : string := "bench,distr,hash,ns".

(** The fields joined into a row: the pieces of the label, then the value. *)
Definition fields (name : string) (r : Q) : list string :=
  split "-" 2 name ++ [str r].

(** [",".join(name.split("-", 2)) + "," + str(robust)] *)
Definition row (name : string) (r : Q) : string :=
  join "," (split "-" 2 name) ++ "," ++ str r.

(** The body of the loop for one artifact: the row it prints, or the
    exception it raises. *)
Definition body (a : artifact) : result string :=
  r <- robust (times a) (iters a) ;;
  Ok (row (function_id a) r).

(** The loop over the artifacts found by the glob, threading the lines
    printed so far.  An exception is not caught: it ends the run with the
    lines already printed. *)
Fixpoint loop (arts : list artifact) (out : list string)
  : list string * option exn :=
  match arts with
  | [] => (out, None)
  | a :: rest =>
      match body a with
      | Ok line => loop rest (out ++ [line])
      | Raise e => (out, Some e)
      end
  end.

(** The whole script: the header is printed first. *)
Definition main (arts : list artifact) : list string * option exn :=
  loop arts [header].

End Rows.

End Extractor.

(** ** The polars operations used by the Aggregator *)

Module Pl.

(** [Expr.replace(mapping)] on a string column: a value that is a key of
    the mapping becomes the mapped value, any other value is kept. *)
Fixpoint replace (mapping : list (string * string)) (s : string) : string :=
  match mapping with
  | [] => s
  | (old, new) :: rest => if String.eqb s old then new else replace rest s
  end.

(** [DataFrame({"name": names, "idx": range(len(names))})]: an ordering
    table, one (name, index) row per name. *)
Definition order_df (names : list string) : list (string * nat) :=
  combine names (seq 0 (List.length names)).

(** [left.join(right, on=key)]: the inner join.  A left row is paired with
    every right row that has its key, a left row without a partner is
    dropped. *)
Definition join {A : Type} (key : A -> string) (right : list (string * nat))
    (left : list A) : list (A * nat) :=
  flat_map
    (fun a => map (fun e => (a, snd e))
                  (filter (fun e => String.eqb (fst e) (key a)) right))
    left.

(** [sort(by)], ascending on the strict key order [ltb]; rows with equal
    keys keep their relative order here (polars leaves it open). *)
Fixpoint insert_by {A : Type} (ltb : A -> A -> bool) (x : A) (l : list A)
  : list A :=
  match l with
  | [] => [x]
  | y :: l' => if ltb y x then y :: insert_by ltb x l' else x :: y :: l'
  end.

Definition sort_by {A : Type} (ltb : A -> A -> bool) (l : list A) : list A :=
  fold_right (insert_by ltb) [] l.

(** Distinct values in order of first appearance, as [pivot] orders its
    rows and columns and [group_by(maintain_order=True)] its groups. *)
Fixpoint unique {A : Type} (eqb : A -> A -> bool) (l : list A) : list A :=
  match l with
  | [] => []
  | x :: l' => x :: filter (fun y => negb (eqb x y)) (unique eqb l')
  end.

(** [Expr.mean()] of a non-empty column of numbers. *)
Definition sum (l : list Q) : Q := fold_right Qplus 0 l.

Definition mean (l : list Q) : Q :=
  sum l / inject_Z (Z.of_nat (List.length l)).

(** [Expr.rank()], method ["average"], ascending.  The values are sorted,
    the sorted positions are numbered from 1 (the ordinal ranks), and a
    value receives the mean of the ordinal ranks of the entries equal to
    it.  [ordinals v s k] lists those ranks in [s], whose head has rank
    [k + 1]. *)
Fixpoint ordinals (v : Q) (s : list Q) (k : nat) : list nat :=
  match s with
  | [] => []
  | x :: s' =>
      if Qeq_bool x v then S k :: ordinals v s' (S k) else ordinals v s' (S k)
  end.

Definition rank (column : list Q) (v : Q) : Q :=
  mean (map (fun i => inject_Z (Z.of_nat i)) (ordinals v (sorted column) 0)).

End Pl.

(** ** The Aggregator: [tools/format-bench-results.py] *)

Module Aggregator.

Definition MAP_SIZE : Z := 1000.
Definition SET_BUILD_FACTOR : Z := 10 * MAP_SIZE.

Definition distr_order : list string :=
  [ "u32"; "u32pair"; "u64"; "u64lobits"; "u64hibits"; "u64pair"; "ipv4";
    "ipv6"; "rgba"; "strenglishword"; "struuid"; "strurl"; "strdate";
    "accesslog"; "kilobyte"; "tenkilobyte" ].

Definition name_repl : list (string * string) :=
  [ ("foldhash-fast", "foldhash-f"); ("foldhash-quality", "foldhash-q") ].

Definition bench_order : list string :=
  [ "hashonly"; "lookupmiss"; "lookuphit"; "setbuild" ].

Definition hash_order : list string :=
  [ "foldhash-f"; "foldhash-q"; "fxhash"; "ahash"; "siphash" ].

Definition distr_order_df := Pl.order_df distr_order.
Definition bench_order_df := Pl.order_df bench_order.
Definition hash_order_df := Pl.order_df hash_order.

(** One row of the CSV stream, columns [bench,distr,hash,ns]. *)
Record record : Type := {
  bench : string;
  distr : string;
  hash : string;
  ns : Q
}.

(** [.with_columns(pl.col.hash.replace(name_repl))] on one row. *)
Definition rename (r : record) : record :=
  {| bench := bench r; distr := distr r;
     hash := Pl.replace name_repl (hash r); ns := ns r |}.

(** [pl.when(pl.col.bench == "setbuild").then(SET_BUILD_FACTOR).otherwise(1)] *)
Definition divisor (r : record) : Z :=
  if String.eqb (bench r) "setbuild" then SET_BUILD_FACTOR else 1.

(** [.with_columns(ns = pl.col.ns / ...)] on one row. *)
Definition rescale (r : record) : record :=
  {| bench := bench r; distr := distr r; hash := hash r;
     ns := ns r / inject_Z (divisor r) |}.

(** A row after the three joins: the record and its [distr_order_idx],
    [bench_order_idx] and [hash_order_idx]. *)
Definition joined : Type := ((record * nat) * nat) * nat.

Definition the_record (j : joined) : record := fst (fst (fst j)).
Definition distr_order_idx (j : joined) : nat := snd (fst (fst j)).
Definition bench_order_idx (j : joined) : nat := snd (fst j).
Definition hash_order_idx (j : joined) : nat := snd j.

(** The order of
    [.sort(["distr_order_idx", "distr", "bench_order_idx", "hash_order_idx"])]:
    lexicographic on the four columns. *)
Definition sort_ltb (a b : joined) : bool :=
  match Nat.compare (distr_order_idx a) (distr_order_idx b) with
  | Lt => true
  | Gt => false
  | Eq =>
    match String.compare (distr (the_record a)) (distr (the_record b)) with
    | Lt => true
    | Gt => false
    | Eq =>
      match Nat.compare (bench_order_idx a) (bench_order_idx b) with
      | Lt => true
      | Gt => false
      | Eq => Nat.ltb (hash_order_idx a) (hash_order_idx b)
      end
    end
  end.

(** The three joins in the order of the script. *)
Definition joins (l : list record) : list joined :=
  Pl.join (fun j => hash (fst (fst j))) hash_order_df
    (Pl.join (fun j => bench (fst j)) bench_order_df
      (Pl.join distr distr_order_df l)).

(** [df]: rename, rescale, join, sort, select. *)
Definition df (input : list record) : list record :=
  map the_record
    (Pl.sort_by sort_ltb (joins (map rescale (map rename input)))).

(** The index of a pivot row: the columns left after [hash] and [ns]. *)
Definition index : Type := string * string.

Definition index_of (r : record) : index := (distr r, bench r).

Definition index_eqb (a b : index) : bool :=
  String.eqb (fst a) (fst b) && String.eqb (snd a) (snd b).

(** The rows of a frame with a given index and hash: the content of one
    pivot cell. *)
Definition at_key (i : index) (h : string) (r : record) : bool :=
  index_eqb (index_of r) i && String.eqb (hash r) h.

(** A pivot cell without an aggregate function: null when no row falls in
    it, the value when one does, an error when several do. *)
Definition cell (d : list record) (i : index) (h : string)
  : result (option Q) :=
  match filter (at_key i h) d with
  | [] => Ok None
  | [r] => Ok (Some (ns r))
  | _ :: _ :: _ => Raise ComputeError
  end.

Record pivot_table : Type := {
  columns : list string;
  rows : list (index * list (option Q))
}.

(** [df.pivot("hash", values="ns")]: index [(distr, bench)], one column
    per hash, rows and columns in order of first appearance. *)
Definition pivot (d : list record) : result pivot_table :=
  let cols := Pl.unique String.eqb (map hash d) in
  rs <- comprehension
          (fun i => cs <- comprehension (cell d i) cols ;; Ok (i, cs))
          (Pl.unique index_eqb (map index_of d)) ;;
  Ok {| columns := cols; rows := rs |}.

(** The [ns] column restricted to the window of a row:
    [.over("distr", "bench")]. *)
Definition window (d : list record) (r : record) : list Q :=
  map ns (filter (fun r' => index_eqb (index_of r') (index_of r)) d).

(** [rank = pl.col.ns.rank().over("distr", "bench")] for one row. *)
Definition rank_of (d : list record) (r : record) : Q :=
  Pl.rank (window d r) (ns r).

(** The rows of one group of [group_by("hash")]. *)
Definition group (d : list record) (h : string) : list record :=
  filter (fun r => String.eqb (hash r) h) d.

(** [avg_rank = pl.col.rank.mean()] *)
Definition avg_rank (d : list record) (h : string) : Q :=
  Pl.mean (map (rank_of d) (group d h)).

Section Frames.

(** The values of the [geometric_mean] column, and
    [pl.col.ns.log().mean().exp()] on the [ns] column of a group: polars'
    logarithm, mean and exponential in double precision are not modelled,
    they are a parameter. *)
Variable float64 : Type.
Variable log_mean_exp : list Q -> float64.

Definition geometric_mean (d : list record) (h : string) : float64 :=
  log_mean_exp (map ns (group d h)).

Record summary_row : Type := {
  s_hash : string;
  s_avg_rank : Q;
  s_geometric_mean : float64
}.

(** The second frame printed, before its transposition: one row per hash
    in order of first appearance. *)
Definition summary (d : list record) : list summary_row :=
  map (fun h => {| s_hash := h; s_avg_rank := avg_rank d h;
                   s_geometric_mean := geometric_mean d h |})
      (Pl.unique String.eqb (map hash d)).

(** What the script prints: the pivot table, then the summary. *)
Inductive printed : Type :=
| Table (t : pivot_table)
| Summary (s : list summary_row).

(** The two [print] calls on the frame, as the frames printed and the
    exception that ends the run, if any.  An error of the pivot ends the
    run before anything is printed.  Else the pivot table is printed; the
    summary of a frame without rows has no [hash] value to name the
    columns of its transposition, which raises [NoDataError]. *)
Definition report (d : list record) : list printed * option exn :=
  match pivot d with
  | Raise e => ([], Some e)
  | Ok t =>
      match summary d with
      | [] => ([Table t], Some NoDataError)
      | s => ([Table t; Summary s], None)
      end
  end.

(** The script, from the records of the CSV.  A CSV without a data row
    has a string column [ns]: the division raises
    [InvalidOperationError] when the frame is collected. *)
Definition main (input : list record) : list printed * option exn :=
  match input with
  | [] => ([], Some InvalidOperationError)
  | _ :: _ => report (df input)
  end.

End Frames.

Arguments geometric_mean {float64} log_mean_exp d h.
Arguments s_hash {float64} _.
Arguments s_avg_rank {float64} _.
Arguments s_geometric_mean {float64} _.
Arguments summary {float64} log_mean_exp d.
Arguments Table {float64} t.
Arguments Summary {float64} s.
Arguments report {float64} log_mean_exp d.
Arguments main {float64} log_mean_exp input.

(** A label has an entry in an ordering table; a record is known when its
    [distr], its [bench] and its renamed [hash] have one in theirs. *)
Definition has_entry (table : list (string * nat)) (name : string) : bool :=
  existsb (fun e => String.eqb (fst e) name) table.

Definition known (r : record) : bool :=
  has_entry distr_order_df (distr r)
  && has_entry bench_order_df (bench r)
  && has_entry hash_order_df (hash (rename r)).

(** The number of hashes of a frame: the columns of its pivot, the rows of
    its summary. *)
Definition number_of_hashes (d : list record) : nat :=
  List.length (Pl.unique String.eqb (map hash d)).

(** A hash is strictly fastest in every group it appears in: each of its
    rows has a smaller [ns] than every row of another hash with the same
    [(distr, bench)]. *)
Definition strictly_fastest (d : list record) (h : string) : Prop :=
  forall r r', In r d -> In r' d ->
    hash r = h -> hash r' <> h -> index_of r' = index_of r ->
    ns r < ns r'.

(** A frame with at most one row per pivot cell. *)
Definition unique_keys (d : list record) : Prop :=
  forall i h, (List.length (filter (at_key i h) d) <= 1)%nat.

(** The rows of the window of [r]. *)
Definition window_rows (d : list record) (r : record) : list record :=
  filter (fun r' => index_eqb (index_of r') (index_of r)) d.

(** Two records fall in the same pivot cell once renamed. *)
Definition same_key (r1 r2 : record) : Prop :=
  distr r1 = distr r2 /\ bench r1 = bench r2 /\
  hash (rename r1) = hash (rename r2).

End Aggregator.

(** ** Inputs of the scenarios *)

Module Scenario.

Import Aggregator.

Definition rec (b d h : string) (v : Q) : record :=
  {| bench := b; distr := d; hash := h; ns := v |}.

(** Two hashes in two groups, each fastest in one of them. *)
Definition two_groups : list record :=
  [ rec "hashonly" "u32" "foldhash-fast" 5;
    rec "hashonly" "u32" "ahash" 10;
    rec "lookuphit" "u32" "foldhash-fast" 10;
    rec "lookuphit" "u32" "ahash" 5 ].

(** One hash fastest in both groups. *)
Definition one_fastest : list record :=
  [ rec "hashonly" "u32" "foldhash-fast" 5;
    rec "hashonly" "u32" "ahash" 10;
    rec "lookuphit" "u32" "foldhash-fast" 4;
    rec "lookuphit" "u32" "ahash" 5 ].

(** A record of a registered hash and one of a hash without an entry. *)
Definition registered : record := rec "hashonly" "u32" "fxhash" 2.
Definition unregistered : record := rec "hashonly" "u32" "xxhash" 1.

(** Two records that share a key once renamed. *)
Definition old_label : record := rec "hashonly" "u32" "foldhash-fast" 3.
Definition new_label : record := rec "hashonly" "u32" "foldhash-f" 4.

(** A sample set without pairs, a label with a dash in its hash field and
    a label without its hash field. *)
Definition no_pairs : Extractor.artifact :=
  {| Extractor.function_id := "hashonly-u32-fxhash";
     Extractor.times := []; Extractor.iters := [] |}.

Definition dashed_label : Extractor.artifact :=
  {| Extractor.function_id := "hashonly-u32-foldhash-fast";
     Extractor.times := [25]; Extractor.iters := [2] |}.

Definition short_label : Extractor.artifact :=
  {| Extractor.function_id := "hashonly-u32";
     Extractor.times := [25]; Extractor.iters := [2] |}.

(** A stand-in for the geometric mean in doubles: the column itself. *)
Definition column_itself (l : list Q) : list Q := l.

(** A rendering of numbers for the scenarios. *)
Definition show (_ : Q) : string := "12.5".

End Scenario.

(** ** Order statistics, in which the properties are stated *)

Module Stat.

(** How many entries of [l] are below [v], and how many are not above it. *)
Definition count_lt (v : Q) (l : list Q) : nat :=
  List.length (filter (fun x => lt x v) l).

Definition count_le (v : Q) (l : list Q) : nat :=
  List.length (filter (fun x => Qle_bool x v) l).

Definition count_eq (v : Q) (l : list Q) : nat :=
  List.length (filter (fun x => Qeq_bool x v) l).

(** [v] is an order statistic of rank [k] (counted from 0) of [l]: at most
    [k] entries are smaller and more than [k] are not larger. *)
Definition order_statistic (k : nat) (l : list Q) (v : Q) : Prop :=
  (count_lt v l <= k < count_le v l)%nat.

(** The per-iteration latency of one (time, iterations) pair, and the
    latencies of a sample set. *)
Definition per_iteration (tn : Q * Q) : Q := fst tn / snd tn.

Definition latencies (times iters : list Q) : list Q :=
  map per_iteration (combine times iters).

(** The sample set a configuration is read with: every iteration count is
    a number other than zero. *)
Definition well_formed (times iters : list Q) : Prop :=
  Forall (fun tn => ~ snd tn == 0) (combine times iters).

(** Two lists hold the same numbers, in any order. *)
Definition same_values (l l' : list Q) : Prop :=
  exists p, Permutation l p /\ Forall2 Qeq p l'.

(** A count as a number. *)
Definition N2Q (n : nat) : Q := inject_Z (Z.of_nat n).

(** The numbers 1, 2, ..., 100. *)
Definition one_to_hundred : list Q :=
  map (fun i => inject_Z (Z.of_nat i)) (seq 1 100).

End Stat.

Import Stat.

(** ** Reading the report, in which further properties are stated *)

Module Report.

Import Aggregator.

(** A list of names without a repetition. *)
Fixpoint nodupb (l : list string) : bool :=
  match l with
  | [] => true
  | x :: l' => negb (existsb (String.eqb x) l') && nodupb l'
  end.

(** The place of a name in an ordering list (its length when absent). *)
Fixpoint position (names : list string) (s : string) : nat :=
  match names with
  | [] => O
  | x :: l => if String.eqb x s then O else S (position l s)
  end.

(** The canonical order of the report on records: the order of the sort,
    with the index columns read from the ordering lists. *)
Definition canonical_ltb (a b : record) : bool :=
  match Nat.compare (position distr_order (distr a))
                    (position distr_order (distr b)) with
  | Lt => true
  | Gt => false
  | Eq =>
    match String.compare (distr a) (distr b) with
    | Lt => true
    | Gt => false
    | Eq =>
      match Nat.compare (position bench_order (bench a))
                        (position bench_order (bench b)) with
      | Lt => true
      | Gt => false
      | Eq => Nat.ltb (position hash_order (hash a))
                      (position hash_order (hash b))
      end
    end
  end.

(** [b] does not come before [a]. *)
Definition not_before {A : Type} (ltb : A -> A -> bool) (a b : A) : Prop :=
  ltb b a = false.

(** The content of a pivot cell of a frame with one row per cell. *)
Definition cell_value (d : list record) (i : index) (h : string)
  : option Q :=
  match filter (at_key i h) d with
  | [r] => Some (ns r)
  | _ => None
  end.

(** Reading a pivot table: the cell in the row of index [i] and the
    column of hash [h], when the table has both. *)
Definition get (t : pivot_table) (i : index) (h : string)
  : option (option Q) :=
  match find (fun row => index_eqb (fst row) i) (rows t) with
  | Some row => nth_error (snd row) (position (columns t) h)
  | None => None
  end.

(** The three index columns of a joined row as one number, most
    significant first. *)
Definition sort_code (j : joined) : nat :=
  (distr_order_idx j * List.length bench_order + bench_order_idx j)
  * List.length hash_order + hash_order_idx j.

(** The rows of a frame in the [(distr, bench)] group of [r] with a
    smaller [ns], and with an equal one ([r] itself among them). *)
Definition peers_below (d : list record) (r : record) : nat :=
  List.length
    (filter (fun r' => index_eqb (index_of r') (index_of r)
                       && lt (ns r') (ns r)) d).

Definition peers_tied (d : list record) (r : record) : nat :=
  List.length
    (filter (fun r' => index_eqb (index_of r') (index_of r)
                       && Qeq_bool (ns r') (ns r)) d).

(** The rows of a frame with a given hash. *)
Definition rows_of_hash (d : list record) (h : string) : list record :=
  filter (fun r => String.eqb (hash r) h) d.

(** The first two steps of the frame on one record. *)
Definition normalize (r : record) : record := rescale (rename r).

(** The table without rows and columns. *)
Definition empty_table : pivot_table := {| columns := []; rows := [] |}.

End Report.

Import Report.

(** * Properties *)

(** ** Sorting and order statistics *)

Section OrderStatistics.

Lemma lt_spec (a b : Q) : lt a b = true <-> a < b.
Proof.
  unfold lt. rewrite negb_true_iff. split; intro H.
  - apply Qnot_le_lt. intro Hle. apply Qle_bool_iff in Hle. congruence.
  - destruct (Qle_bool b a) eqn:E; [|reflexivity].
    apply Qle_bool_iff in E. exfalso. apply (Qlt_not_le _ _ H E).
Qed.

Lemma lt_false (a b : Q) : lt a b = false <-> b <= a.
Proof.
  unfold lt. rewrite negb_false_iff. apply Qle_bool_iff.
Qed.

Lemma insort_perm (x : Q) (l : list Q) : Permutation (x :: l) (insort x l).
Proof.
  induction l as [|y l IH]; simpl; [reflexivity|].
  destruct (lt y x); [|reflexivity].
  rewrite perm_swap. now apply perm_skip.
Qed.

Lemma sorted_perm (l : list Q) : Permutation l (sorted l).
Proof.
  induction l as [|x l IH]; simpl; [constructor|].
  rewrite <- insort_perm. now apply perm_skip.
Qed.

Lemma sorted_length (l : list Q) : List.length (sorted l) = List.length l.
Proof. symmetry. apply Permutation_length, sorted_perm. Qed.

Lemma insort_Sorted (x : Q) (l : list Q) :
  Sorted Qle l -> Sorted Qle (insort x l).
Proof.
  induction 1 as [|y l Hs IH Hhd]; simpl.
  - repeat constructor.
  - destruct (lt y x) eqn:E.
    + constructor; [exact IH|].
      apply lt_spec in E.
      destruct l as [|z l]; simpl.
      * constructor. now apply Qlt_le_weak.
      * inversion Hhd; subst.
        destruct (lt z x); constructor; trivial. now apply Qlt_le_weak.
    + apply lt_false in E. repeat constructor; trivial.
Qed.

Lemma sorted_Sorted (l : list Q) : Sorted Qle (sorted l).
Proof.
  induction l; simpl; [constructor | now apply insort_Sorted].
Qed.

Lemma Sorted_head_le (x : Q) (l : list Q) :
  Sorted Qle (x :: l) -> Forall (Qle x) l.
Proof.
  intro H. apply Sorted_StronglySorted in H.
  - now inversion H.
  - intros a b c. apply Qle_trans.
Qed.

Lemma filter_length_perm {A : Type} (f : A -> bool) (l l' : list A) :
  Permutation l l' ->
  List.length (filter f l) = List.length (filter f l').
Proof.
  induction 1; simpl; trivial.
  - destruct (f x); simpl; congruence.
  - destruct (f x), (f y); reflexivity.
  - congruence.
Qed.

Lemma order_statistic_perm (k : nat) (l l' : list Q) (v : Q) :
  Permutation l l' -> order_statistic k l v -> order_statistic k l' v.
Proof.
  unfold order_statistic, count_lt, count_le. intros HP H.
  now rewrite <- !(filter_length_perm _ _ _ HP).
Qed.

Lemma count_lt_cons (v x : Q) (l : list Q) :
  count_lt v (x :: l) = ((if lt x v then 1 else 0) + count_lt v l)%nat.
Proof. unfold count_lt; simpl. now destruct (lt x v). Qed.

Lemma count_le_cons (v x : Q) (l : list Q) :
  count_le v (x :: l) = ((if Qle_bool x v then 1 else 0) + count_le v l)%nat.
Proof. unfold count_le; simpl. now destruct (Qle_bool x v). Qed.

Lemma count_eq_cons (v x : Q) (l : list Q) :
  count_eq v (x :: l) = ((if Qeq_bool x v then 1 else 0) + count_eq v l)%nat.
Proof. unfold count_eq; simpl. now destruct (Qeq_bool x v). Qed.

Lemma count_lt_none (v : Q) (l : list Q) :
  Forall (Qle v) l -> count_lt v l = O.
Proof.
  induction 1 as [|x l Hx _ IH]; [reflexivity|].
  rewrite count_lt_cons, IH. apply lt_false in Hx. now rewrite Hx.
Qed.

Lemma Sorted_nth_order_statistic (s : list Q) :
  Sorted Qle s ->
  forall k v, nth_error s k = Some v -> order_statistic k s v.
Proof.
  unfold order_statistic.
  induction s as [|x s IH]; intros Hs k v Hk; [now destruct k|].
  pose proof (Sorted_head_le _ _ Hs) as Hle.
  apply Sorted_inv in Hs. destruct Hs as [Hs _].
  rewrite count_lt_cons, count_le_cons.
  destruct k as [|k]; simpl in Hk.
  - injection Hk as ->. rewrite (count_lt_none _ _ Hle).
    assert (E : lt v v = false) by (apply lt_false, Qle_refl).
    assert (E' : Qle_bool v v = true) by (apply Qle_bool_iff, Qle_refl).
    rewrite E, E'. lia.
  - specialize (IH Hs _ _ Hk).
    assert (Hxv : x <= v).
    { rewrite Forall_forall in Hle. apply Hle. eapply nth_error_In, Hk. }
    apply Qle_bool_iff in Hxv. rewrite Hxv.
    destruct (lt x v); lia.
Qed.

Lemma count_le_lt_mono (a b : Q) (l : list Q) :
  a < b -> (count_le a l <= count_lt b l)%nat.
Proof.
  intro Hab.
  induction l as [|x l IH]; [apply Nat.le_refl|].
  rewrite count_lt_cons, count_le_cons.
  destruct (Qle_bool x a) eqn:E.
  - apply Qle_bool_iff in E.
    assert (Hx : lt x b = true) by (apply lt_spec; eapply Qle_lt_trans; eauto).
    rewrite Hx. lia.
  - destruct (lt x b); lia.
Qed.

(** The order statistic of a given rank is unique up to numeric equality. *)
Lemma order_statistic_unique (k : nat) (l : list Q) (a b : Q) :
  order_statistic k l a -> order_statistic k l b -> a == b.
Proof.
  unfold order_statistic. intros Ha Hb.
  destruct (Q_dec a b) as [[H|H]|H]; trivial.
  - pose proof (count_le_lt_mono _ _ l H). lia.
  - pose proof (count_le_lt_mono _ _ l H). lia.
Qed.

End OrderStatistics.

(** ** The Extractor's robust estimate *)

Section Robust.

Import Extractor.

Lemma comprehension_truediv (l : list (Q * Q)) :
  Forall (fun tn => ~ snd tn == 0) l ->
  comprehension (fun tn => truediv (fst tn) (snd tn)) l
  = Ok (map per_iteration l).
Proof.
  induction 1 as [|tn l Hn _ IH]; simpl; [reflexivity|].
  unfold truediv at 1.
  destruct (Qeq_bool (snd tn) 0) eqn:E.
  - apply Qeq_bool_iff in E. contradiction.
  - simpl. now rewrite IH.
Qed.

Lemma sample_times_ok (times iters : list Q) :
  well_formed times iters ->
  sample_times times iters = Ok (sorted (latencies times iters)).
Proof.
  intro H. unfold sample_times. now rewrite comprehension_truediv.
Qed.

Lemma latencies_length (times iters : list Q) :
  List.length (latencies times iters) = List.length (combine times iters).
Proof. apply length_map. Qed.

(** On a well-formed, non-empty sample set the estimate exists and is the
    entry of the sorted latencies at index [n / 10]. *)
Lemma robust_ok (times iters : list Q) :
  well_formed times iters ->
  (1 <= List.length (combine times iters))%nat ->
  exists r,
    robust times iters = Ok r /\
    nth_error (sorted (latencies times iters))
              (List.length (combine times iters) / 10) = Some r.
Proof.
  intros Hwf Hn. unfold robust. rewrite (sample_times_ok _ _ Hwf). cbn [bind].
  rewrite sorted_length, latencies_length. unfold getitem.
  destruct (nth_error _ _) as [r|] eqn:E.
  - now exists r.
  - apply nth_error_None in E.
    rewrite sorted_length, latencies_length in E.
    assert (List.length (combine times iters) / 10
            < List.length (combine times iters))%nat
      by (apply Nat.div_lt; lia).
    lia.
Qed.

Lemma robust_order_statistic (times iters : list Q) (r : Q) :
  well_formed times iters ->
  robust times iters = Ok r ->
  order_statistic (List.length (combine times iters) / 10)
                  (latencies times iters) r.
Proof.
  intros Hwf Hr. unfold robust in Hr.
  rewrite (sample_times_ok _ _ Hwf) in Hr. cbn [bind] in Hr.
  rewrite sorted_length, latencies_length in Hr. unfold getitem in Hr.
  destruct (nth_error _ _) as [r'|] eqn:E; [|discriminate].
  injection Hr as ->.
  apply (order_statistic_perm _ (sorted (latencies times iters))).
  - symmetry. apply sorted_perm.
  - apply Sorted_nth_order_statistic; [apply sorted_Sorted | exact E].
Qed.

Lemma well_formed_perm (times iters times' iters' : list Q) :
  Permutation (combine times' iters') (combine times iters) ->
  well_formed times iters -> well_formed times' iters'.
Proof.
  unfold well_formed. intros HP H.
  eapply Permutation_Forall; [symmetry; exact HP | exact H].
Qed.

End Robust.

(** C1.  On a sample set of [n >= 1] pairs (iteration counts non-zero) the
    robust estimate exists and is the entry at 0-indexed position
    [n / 10] of the per-iteration latencies [time / iterations] sorted
    ascending: it is that entry of the script's sorted list, it agrees with
    that entry of every ascending arrangement of the latencies, and it is
    their order statistic of rank [n / 10].  Any permutation of the input
    pairs yields a numerically equal estimate. *)
Theorem robust_is_tenth_percentile (times iters : list Q) :
  let n := List.length (combine times iters) in
  (1 <= n)%nat ->
  well_formed times iters ->
  exists r,
    Extractor.robust times iters = Ok r /\
    nth_error (sorted (latencies times iters)) (n / 10) = Some r /\
    order_statistic (n / 10) (latencies times iters) r /\
    (forall s, Sorted Qle s -> Permutation s (latencies times iters) ->
       exists r', nth_error s (n / 10) = Some r' /\ r' == r) /\
    (forall times' iters',
       Permutation (combine times' iters') (combine times iters) ->
       exists r', Extractor.robust times' iters' = Ok r' /\ r' == r).
Proof.
  intros n Hn Hwf.
  destruct (robust_ok _ _ Hwf Hn) as [r [Hr Hnth]].
  pose proof (robust_order_statistic _ _ _ Hwf Hr) as Hos. fold n in Hos.
  exists r.
  split; [exact Hr|]. split; [exact Hnth|]. split; [exact Hos|]. split.
  - intros s Hs HP.
    assert (Hlen : List.length s = n).
    { rewrite (Permutation_length HP). apply latencies_length. }
    destruct (nth_error s (n / 10)) as [r'|] eqn:E.
    + exists r'. split; [reflexivity|].
      apply (order_statistic_unique (n / 10) (latencies times iters)); trivial.
      apply (order_statistic_perm _ s); trivial.
      now apply Sorted_nth_order_statistic.
    + apply nth_error_None in E.
      assert (n / 10 < n)%nat by (apply Nat.div_lt; lia). lia.
  - intros times' iters' HP.
    pose proof (well_formed_perm _ _ _ _ HP Hwf) as Hwf'.
    assert (Hn' : List.length (combine times' iters') = n)
      by apply (Permutation_length HP).
    destruct (robust_ok times' iters' Hwf') as [r' [Hr' _]]; [lia|].
    exists r'. split; [exact Hr'|].
    apply (order_statistic_unique (n / 10) (latencies times iters)); trivial.
    apply (order_statistic_perm _ (latencies times' iters')).
    + unfold latencies. now apply Permutation_map.
    + rewrite <- Hn'. now apply robust_order_statistic.
Qed.

(** The scenarios of the specification for the estimate: ten equal
    samples give their value; three samples give the smallest. *)
Example robust_constant :
  Extractor.robust (repeat 100 10) (repeat 1 10) = Ok 100.
Proof. vm_compute. reflexivity. Qed.

Example robust_three_pairs :
  Extractor.robust [30; 10; 20] [2; 1; 4] = Ok (20 # 4).
Proof. vm_compute. reflexivity. Qed.

Lemma robust_is_tenth_percentile_witness :
  exists r,
    Extractor.robust [30; 10; 20] [2; 1; 4] = Ok r /\
    nth_error (sorted (latencies [30; 10; 20] [2; 1; 4])) (3 / 10) = Some r /\
    order_statistic (3 / 10) (latencies [30; 10; 20] [2; 1; 4]) r /\
    (forall s, Sorted Qle s ->
       Permutation s (latencies [30; 10; 20] [2; 1; 4]) ->
       exists r', nth_error s (3 / 10) = Some r' /\ r' == r) /\
    (forall times' iters',
       Permutation (combine times' iters')
                   (combine [30; 10; 20] [2; 1; 4]) ->
       exists r', Extractor.robust times' iters' = Ok r' /\ r' == r).
Proof.
  apply (robust_is_tenth_percentile [30; 10; 20] [2; 1; 4]).
  - simpl. lia.
  - repeat constructor; simpl; intro H; discriminate H.
Defined.

(** ** The scenario of the latencies 1 to 100 *)

Section Hundred.

Lemma lt_Qeq (x y v : Q) : x == y -> lt x v = lt y v.
Proof. intro H. unfold lt. now rewrite H. Qed.

Lemma Qle_bool_Qeq (x y v : Q) : x == y -> Qle_bool x v = Qle_bool y v.
Proof. intro H. now rewrite H. Qed.

Lemma order_statistic_Forall2 (k : nat) (l l' : list Q) (v : Q) :
  Forall2 Qeq l l' -> order_statistic k l v -> order_statistic k l' v.
Proof.
  intro H.
  assert (E : count_lt v l = count_lt v l' /\ count_le v l = count_le v l').
  { induction H as [|x y l l' Hxy _ [IH1 IH2]]; [now split|].
    rewrite !count_lt_cons, !count_le_cons, IH1, IH2.
    now rewrite (lt_Qeq _ _ _ Hxy), (Qle_bool_Qeq _ _ _ Hxy). }
  unfold order_statistic. destruct E as [-> ->]. trivial.
Qed.

Lemma order_statistic_same_values (k : nat) (l l' : list Q) (v : Q) :
  same_values l l' -> order_statistic k l v -> order_statistic k l' v.
Proof.
  intros [p [HP HF]] H.
  eapply order_statistic_Forall2; [exact HF|].
  eapply order_statistic_perm; eauto.
Qed.

Lemma same_values_length (l l' : list Q) :
  same_values l l' -> List.length l = List.length l'.
Proof.
  intros [p [HP HF]].
  rewrite (Permutation_length HP). eapply Forall2_length, HF.
Qed.

Lemma eleven_in_hundred : order_statistic 10 one_to_hundred 11.
Proof.
  unfold order_statistic.
  replace (count_lt 11 one_to_hundred) with 10%nat by (vm_compute; reflexivity).
  replace (count_le 11 one_to_hundred) with 11%nat by (vm_compute; reflexivity).
  lia.
Qed.

(** The sample set with times 1 to 100, each measured over one iteration. *)
Lemma hundred_well_formed : well_formed one_to_hundred (repeat 1 100).
Proof.
  unfold well_formed. rewrite Forall_forall. intros [t n] Hin.
  apply in_combine_r in Hin. apply repeat_spec in Hin. subst n.
  simpl. intro H. discriminate H.
Qed.

Lemma hundred_same_values :
  same_values (latencies one_to_hundred (repeat 1 100)) one_to_hundred.
Proof.
  exists (latencies one_to_hundred (repeat 1 100)). split; [reflexivity|].
  vm_compute. repeat (constructor; [reflexivity|]). constructor.
Qed.

End Hundred.

(** C3, as the code has it.  When the per-iteration latencies are the
    numbers 1 to 100 in any order, the robust estimate is 11: index
    [100 / 10 = 10] counted from 0 is the 11th smallest value. *)
Theorem robust_of_1_to_100_is_11 (times iters : list Q) :
  well_formed times iters ->
  same_values (latencies times iters) one_to_hundred ->
  exists r, Extractor.robust times iters = Ok r /\ r == 11.
Proof.
  intros Hwf Hsv.
  assert (Hn : List.length (combine times iters) = 100%nat).
  { rewrite <- latencies_length, (same_values_length _ _ Hsv). reflexivity. }
  destruct (robust_ok times iters Hwf) as [r [Hr _]]; [lia|].
  exists r. split; [exact Hr|].
  apply (order_statistic_unique 10 one_to_hundred); [|apply eleven_in_hundred].
  apply (order_statistic_same_values _ _ _ _ Hsv).
  pose proof (robust_order_statistic _ _ _ Hwf Hr) as H.
  rewrite Hn in H. exact H.
Qed.

Lemma robust_of_1_to_100_is_11_witness :
  exists r, Extractor.robust one_to_hundred (repeat 1 100) = Ok r /\ r == 11.
Proof.
  apply (robust_of_1_to_100_is_11 one_to_hundred (repeat 1 100)).
  - apply hundred_well_formed.
  - apply hundred_same_values.
Defined.

(** C3, as the specification states it, fails: on times 1 to 100 with one
    iteration each the estimate is 11, not 10. *)
Lemma robust_of_1_to_100_is_not_10 :
  ~ (forall times iters : list Q,
       well_formed times iters ->
       same_values (latencies times iters) one_to_hundred ->
       exists r, Extractor.robust times iters = Ok r /\ r == 10).
Proof.
  intro H.
  destruct (H one_to_hundred (repeat 1 100)
              hundred_well_formed hundred_same_values) as [r [Hr Hr10]].
  assert (E : Extractor.robust one_to_hundred (repeat 1 100) = Ok 11)
    by (vm_compute; reflexivity).
  rewrite E in Hr. injection Hr as <-. discriminate Hr10.
Qed.

(** ** Labels: splitting and joining *)

Section Labels.

Lemma count_char_app (c : ascii) (a b : string) :
  count_char c (a ++ b) = (count_char c a + count_char c b)%nat.
Proof.
  induction a as [|d a IH]; simpl; [reflexivity|]. rewrite IH. lia.
Qed.

Lemma cut_none (sep : ascii) (s : string) :
  cut sep s = None <-> count_char sep s = O.
Proof.
  induction s as [|c s IH]; simpl; [tauto|].
  destruct (Ascii.eqb c sep); [split; discriminate|].
  destruct (cut sep s) as [[a b]|]; simpl.
  - split; [discriminate|]. intro H. apply IH in H. discriminate.
  - split; [|reflexivity]. intros _. now apply IH.
Qed.

(** A successful cut is at the first separator: the text before it has
    none, and the string is the two parts around one separator. *)
Lemma cut_some (sep : ascii) (s a b : string) :
  cut sep s = Some (a, b) ->
  s = a ++ String sep b /\ count_char sep a = O.
Proof.
  revert a b. induction s as [|c s IH]; simpl; intros a b H; [discriminate|].
  destruct (Ascii.eqb c sep) eqn:E.
  - apply Ascii.eqb_eq in E. subst c. injection H as <- <-. now split.
  - destruct (cut sep s) as [[a' b']|]; [|discriminate].
    injection H as <- <-. destruct (IH _ _ eq_refl) as [-> Hc].
    split; [reflexivity|]. simpl. now rewrite E.
Qed.

Lemma cut_app (sep : ascii) (a b : string) :
  count_char sep a = O -> cut sep (a ++ String sep b) = Some (a, b).
Proof.
  induction a as [|c a IH]; simpl; intro H.
  - now rewrite Ascii.eqb_refl.
  - destruct (Ascii.eqb c sep); [discriminate|]. now rewrite IH.
Qed.

Lemma count_char_sep (sep : ascii) (a b : string) :
  count_char sep (a ++ String sep b)
  = S (count_char sep a + count_char sep b).
Proof.
  rewrite count_char_app. simpl. rewrite Ascii.eqb_refl. lia.
Qed.

(** A split yields one more piece than it makes cuts, and it makes as many
    cuts as there are separators, up to [maxsplit]. *)
Lemma split_length (sep : ascii) (m : nat) (s : string) :
  List.length (split sep m s) = S (Nat.min m (count_char sep s)).
Proof.
  revert s. induction m as [|m IH]; intro s; simpl; [reflexivity|].
  destruct (cut sep s) as [[a b]|] eqn:E.
  - destruct (cut_some _ _ _ _ E) as [-> Ha].
    rewrite count_char_sep, Ha. simpl. now rewrite IH.
  - apply cut_none in E. rewrite E. reflexivity.
Qed.

Lemma split_nonempty (sep : ascii) (m : nat) (s : string) :
  split sep m s <> [].
Proof.
  intro H. pose proof (split_length sep m s) as L. rewrite H in L.
  discriminate L.
Qed.

Lemma join_cons (sep x : string) (l : list string) :
  l <> [] -> join sep (x :: l) = x ++ sep ++ join sep l.
Proof. destruct l; [congruence | reflexivity]. Qed.

Lemma append_assoc (a b c : string) : (a ++ b) ++ c = a ++ (b ++ c).
Proof. induction a; simpl; congruence. Qed.

Lemma join_snoc (sep x : string) (l : list string) :
  l <> [] -> join sep (l ++ [x]) = join sep l ++ sep ++ x.
Proof.
  induction l as [|y l IH]; [congruence|]. intros _.
  destruct l as [|z l]; [reflexivity|].
  change ((y :: z :: l) ++ [x])%list with (y :: ((z :: l) ++ [x]))%list.
  rewrite join_cons by discriminate.
  rewrite IH by discriminate.
  rewrite (join_cons sep y (z :: l)) by discriminate.
  now rewrite !append_assoc.
Qed.

(** Joining the pieces of a split with another character changes each cut
    separator into it and nothing else. *)
Lemma count_char_join_split (sep c : ascii) (m : nat) (s : string) :
  Ascii.eqb sep c = false ->
  count_char c (join (String c EmptyString) (split sep m s))
  = (count_char c s + Nat.min m (count_char sep s))%nat.
Proof.
  intro Hne. revert s. induction m as [|m IH]; intro s; simpl.
  - unfold join; simpl. lia.
  - destruct (cut sep s) as [[a b]|] eqn:E.
    + destruct (cut_some _ _ _ _ E) as [-> Ha].
      rewrite join_cons by apply split_nonempty.
      rewrite count_char_sep, Ha, !count_char_app, IH. simpl.
      rewrite Ascii.eqb_refl, Hne. lia.
    + apply cut_none in E. rewrite E. unfold join; simpl. lia.
Qed.

Lemma split_three (a b c : string) :
  count_char "-" a = O -> count_char "-" b = O ->
  split "-" 2 (a ++ String "-" (b ++ String "-" c)) = [a; b; c].
Proof.
  intros Ha Hb. simpl. now rewrite (cut_app _ _ _ Ha), (cut_app _ _ _ Hb).
Qed.

End Labels.

(** C7.  For an artifact whose function id is [<bench>-<distr>-<hash>],
    where [bench] and [distr] hold no dash, the Extractor's split with at
    most two cuts yields exactly the three fields [bench], [distr] and
    [hash], the third being the whole remainder with the dashes it
    contains: these are the fields of its row, the row printed is
    [bench,distr,hash,<estimate>], and it is what the body of the loop
    returns when the estimate exists. *)
Theorem split_function_id (str : Q -> string) (a : Extractor.artifact)
    (bench distr hash : string) (r : Q) :
  Extractor.function_id a = bench ++ "-" ++ distr ++ "-" ++ hash ->
  count_char "-" bench = O ->
  count_char "-" distr = O ->
  split "-" 2 (Extractor.function_id a) = [bench; distr; hash] /\
  Extractor.fields str (Extractor.function_id a) r
  = [bench; distr; hash; str r] /\
  Extractor.row str (Extractor.function_id a) r
  = bench ++ "," ++ distr ++ "," ++ hash ++ "," ++ str r /\
  (Extractor.robust (Extractor.times a) (Extractor.iters a) = Ok r ->
   Extractor.body str a
   = Ok (bench ++ "," ++ distr ++ "," ++ hash ++ "," ++ str r)).
Proof.
  intros Hid Hb Hd.
  assert (Hs : split "-" 2 (Extractor.function_id a) = [bench; distr; hash]).
  { rewrite Hid.
    change (bench ++ "-" ++ distr ++ "-" ++ hash)
      with (bench ++ String "-" (distr ++ String "-" hash)).
    now apply split_three. }
  assert (Hrow : Extractor.row str (Extractor.function_id a) r
                 = bench ++ "," ++ distr ++ "," ++ hash ++ "," ++ str r).
  { unfold Extractor.row. rewrite Hs. unfold join. simpl String.concat.
    rewrite append_assoc. simpl. rewrite append_assoc. reflexivity. }
  split; [exact Hs|]. split; [|split; [exact Hrow|]].
  - unfold Extractor.fields. now rewrite Hs.
  - intro Hr. unfold Extractor.body. rewrite Hr. cbn [bind].
    now rewrite Hrow.
Qed.

Lemma split_function_id_witness :
  Extractor.row Scenario.show
    (Extractor.function_id Scenario.dashed_label) (25 / 2)
  = "hashonly,u32,foldhash-fast,12.5" /\
  Extractor.body Scenario.show Scenario.dashed_label
  = Ok "hashonly,u32,foldhash-fast,12.5".
Proof.
  destruct (split_function_id Scenario.show Scenario.dashed_label
              "hashonly" "u32" "foldhash-fast" (25 / 2))
    as [_ [_ [Hrow Hbody]]]; try reflexivity.
  split; [exact Hrow | apply Hbody; reflexivity].
Defined.

(** ** The Extractor's loop *)

Section Loop.

Import Extractor.

Variable str : Q -> string.

Lemma robust_empty (times iters : list Q) :
  combine times iters = [] -> robust times iters = Raise IndexError.
Proof.
  intro H. unfold robust, sample_times. rewrite H. reflexivity.
Qed.

(** An artifact whose body raises ends the run: the lines printed are the
    ones of the artifacts before it, and none comes after. *)
Lemma loop_raise (a : artifact) (e0 : exn) (post : list artifact) :
  body str a = Raise e0 ->
  forall pre out,
  exists out' e,
    loop str (pre ++ a :: post) out = (out', Some e) /\
    (List.length out' <= List.length out + List.length pre)%nat /\
    (forall lines, comprehension (body str) pre = Ok lines ->
       out' = (out ++ lines)%list /\ e = e0).
Proof.
  intros Ha pre. induction pre as [|b pre IH]; intro out; simpl.
  - rewrite Ha. exists out, e0. split; [reflexivity|]. split; [lia|].
    intros lines H. injection H as <-. now rewrite app_nil_r.
  - destruct (body str b) as [line|e1] eqn:Eb.
    + destruct (IH (out ++ [line])%list) as [out' [e [Hl [Hlen Hok]]]].
      exists out', e. split; [exact Hl|]. split.
      * rewrite length_app in Hlen. simpl in Hlen. lia.
      * intros lines H. simpl in H.
        destruct (comprehension (body str) pre) as [ls|]; [|discriminate].
        injection H as <-. destruct (Hok ls eq_refl) as [-> ->].
        now rewrite <- app_assoc.
    + exists out, e1. split; [reflexivity|]. split; [lia|].
      intros lines H. discriminate H.
Qed.

End Loop.

(** C9.  A configuration whose sample set has no (time, iters) pair makes
    the index into the sorted latencies raise [IndexError].  The exception
    ends the run there: no line is printed for that configuration (nor for
    a later one), so no record with a made-up estimate is emitted; when the
    configurations before it were sound, the output is the header and
    their rows, and the error is that [IndexError]. *)
Theorem empty_sample_set_is_fatal (str : Q -> string) (a : Extractor.artifact) :
  combine (Extractor.times a) (Extractor.iters a) = [] ->
  Extractor.body str a = Raise IndexError /\
  forall pre post,
  exists out e,
    Extractor.main str (pre ++ a :: post) = (out, Some e) /\
    (List.length out <= 1 + List.length pre)%nat /\
    (forall lines, comprehension (Extractor.body str) pre = Ok lines ->
       out = Extractor.header :: lines /\ e = IndexError).
Proof.
  intro H.
  assert (Hb : Extractor.body str a = Raise IndexError).
  { unfold Extractor.body. now rewrite robust_empty. }
  split; [exact Hb|]. intros pre post. unfold Extractor.main.
  destruct (loop_raise str a IndexError post Hb pre [Extractor.header])
    as [out [e [Hl [Hlen Hok]]]].
  exists out, e. split; [exact Hl|]. split; [exact Hlen|].
  intros lines Hlines. apply (Hok lines Hlines).
Qed.

Lemma empty_sample_set_is_fatal_witness :
  Extractor.body Scenario.show Scenario.no_pairs = Raise IndexError /\
  forall pre post,
  exists out e,
    Extractor.main Scenario.show (pre ++ Scenario.no_pairs :: post)
    = (out, Some e) /\
    (List.length out <= 1 + List.length pre)%nat /\
    (forall lines,
       comprehension (Extractor.body Scenario.show) pre = Ok lines ->
       out = Extractor.header :: lines /\ e = IndexError).
Proof.
  apply (empty_sample_set_is_fatal Scenario.show Scenario.no_pairs).
  reflexivity.
Defined.

(** C10.  A function id with fewer than two dashes is not rejected: the
    body of the loop raises nothing and the run prints one row for it.
    The row is the comma-join of the pieces of the label and the estimate,
    which are fewer than four fields (one per dash, plus two); when neither
    the label nor the rendered estimate holds a comma, the row has fewer
    than the three commas of the header. *)
Theorem short_label_gives_short_row
    (str : Q -> string) (a : Extractor.artifact) (r : Q) :
  let name := Extractor.function_id a in
  (count_char "-" name < 2)%nat ->
  Extractor.robust (Extractor.times a) (Extractor.iters a) = Ok r ->
  Extractor.body str a = Ok (Extractor.row str name r) /\
  Extractor.main str [a]
  = ([Extractor.header; Extractor.row str name r], None) /\
  Extractor.row str name r = join "," (Extractor.fields str name r) /\
  List.length (Extractor.fields str name r) = (count_char "-" name + 2)%nat /\
  (List.length (Extractor.fields str name r) < 4)%nat /\
  (count_char "," name = O -> count_char "," (str r) = O ->
   count_char "," (Extractor.row str name r) = S (count_char "-" name) /\
   (count_char "," (Extractor.row str name r)
    < count_char "," Extractor.header)%nat).
Proof.
  intros name Hd Hr.
  assert (Hb : Extractor.body str a = Ok (Extractor.row str name r)).
  { unfold Extractor.body. rewrite Hr. reflexivity. }
  assert (Hlen : List.length (Extractor.fields str name r)
                 = (count_char "-" name + 2)%nat).
  { unfold Extractor.fields. rewrite length_app, split_length.
    rewrite Nat.min_r by lia. simpl. lia. }
  split; [exact Hb|]. split.
  { unfold Extractor.main. simpl. now rewrite Hb. }
  split.
  { unfold Extractor.row, Extractor.fields.
    rewrite join_snoc by apply split_nonempty. reflexivity. }
  split; [exact Hlen|]. split; [lia|].
  intros Hn Hs.
  assert (E : count_char "," (Extractor.row str name r)
              = S (count_char "-" name)).
  { unfold Extractor.row. rewrite !count_char_app.
    rewrite (count_char_join_split "-" "," 2 name eq_refl).
    rewrite Hn, Hs, Nat.min_r by lia. simpl. lia. }
  split; [exact E|]. rewrite E. simpl. lia.
Qed.

Lemma short_label_gives_short_row_witness :
  Extractor.main Scenario.show [Scenario.short_label]
  = ([Extractor.header; "hashonly,u32,12.5"], None).
Proof.
  destruct (short_label_gives_short_row
              Scenario.show Scenario.short_label (25 / 2)) as [_ [H _]].
  - simpl. lia.
  - reflexivity.
  - exact H.
Defined.

(** ** The Aggregator's frame: rename, rescale, join, sort *)

Section Frame.

Import Aggregator.

Lemma Qdiv_1 (q : Q) : q / inject_Z 1 = q.
Proof.
  destruct q as [n d]. unfold Qdiv, Qmult, Qinv, inject_Z; simpl.
  f_equal; lia.
Qed.

Lemma insert_by_perm {A : Type} (ltb : A -> A -> bool) (x : A) (l : list A) :
  Permutation (x :: l) (Pl.insert_by ltb x l).
Proof.
  induction l as [|y l IH]; simpl; [reflexivity|].
  destruct (ltb y x); [|reflexivity].
  rewrite perm_swap. now apply perm_skip.
Qed.

Lemma sort_by_perm {A : Type} (ltb : A -> A -> bool) (l : list A) :
  Permutation l (Pl.sort_by ltb l).
Proof.
  induction l as [|x l IH]; simpl; [constructor|].
  rewrite <- insert_by_perm. now apply perm_skip.
Qed.

Lemma join_app {A : Type} (key : A -> string) (t : list (string * nat))
    (l1 l2 : list A) :
  Pl.join key t (l1 ++ l2) = (Pl.join key t l1 ++ Pl.join key t l2)%list.
Proof. apply flat_map_app. Qed.

Lemma join_in {A : Type} (key : A -> string) (t : list (string * nat))
    (l : list A) (x : A * nat) :
  In x (Pl.join key t l) ->
  In (fst x) l /\ has_entry t (key (fst x)) = true.
Proof.
  unfold Pl.join. rewrite in_flat_map. intros [a [Ha Hx]].
  apply in_map_iff in Hx. destruct Hx as [e [<- He]].
  apply filter_In in He. destruct He as [He Hk]. simpl.
  split; [exact Ha|]. unfold has_entry. apply existsb_exists. now exists e.
Qed.

Lemma joins_app (l1 l2 : list record) :
  joins (l1 ++ l2) = (joins l1 ++ joins l2)%list.
Proof. unfold joins. now rewrite !join_app. Qed.

(** What the three joins keep of a record: nothing when a label has no
    entry, else one row carrying the record. *)
Lemma joins_in (l : list record) (j : joined) :
  In j (joins l) ->
  In (the_record j) l /\
  has_entry distr_order_df (distr (the_record j)) = true /\
  has_entry bench_order_df (bench (the_record j)) = true /\
  has_entry hash_order_df (hash (the_record j)) = true.
Proof.
  unfold joins, the_record. intro H.
  apply join_in in H. destruct H as [H Hh].
  apply join_in in H. destruct H as [H Hb].
  apply join_in in H. destruct H as [H Hd].
  auto.
Qed.

Lemma known_rescale_rename (r : record) :
  known r =
  has_entry distr_order_df (distr (rescale (rename r)))
  && has_entry bench_order_df (bench (rescale (rename r)))
  && has_entry hash_order_df (hash (rescale (rename r))).
Proof. reflexivity. Qed.

Lemma joins_unknown (r : record) :
  known r = false -> joins [rescale (rename r)] = [].
Proof.
  intro Hk. destruct (joins [rescale (rename r)]) as [|j js] eqn:E; trivial.
  assert (Hj : In j (joins [rescale (rename r)])) by (rewrite E; now left).
  apply joins_in in Hj. destruct Hj as [[Hr|[]] [Hd [Hb Hh]]].
  rewrite <- Hr in Hd, Hb, Hh.
  rewrite known_rescale_rename, Hd, Hb, Hh in Hk. discriminate Hk.
Qed.

(** The frame does not depend on the records without an entry. *)
Lemma df_drop_unknown (l1 l2 : list record) (r : record) :
  known r = false -> df (l1 ++ r :: l2) = df (l1 ++ l2).
Proof.
  intro Hk. unfold df. rewrite !map_app. simpl.
  rewrite !joins_app.
  change (rescale (rename r) :: map rescale (map rename l2))
    with ([rescale (rename r)] ++ map rescale (map rename l2))%list.
  rewrite joins_app, (joins_unknown _ Hk). reflexivity.
Qed.

(** Every row of the frame is the renamed and rescaled form of an input
    record. *)
Lemma df_in (input : list record) (d : record) :
  In d (df input) ->
  exists r, In r input /\ d = rescale (rename r) /\ known r = true.
Proof.
  unfold df. intro H. apply in_map_iff in H. destruct H as [j [<- Hj]].
  apply (Permutation_in _ (Permutation_sym (sort_by_perm _ _))) in Hj.
  apply joins_in in Hj. destruct Hj as [Hin [Hd [Hb Hh]]].
  rewrite map_map in Hin. apply in_map_iff in Hin.
  destruct Hin as [r [Hr Hin]]. exists r. split; [exact Hin|].
  split; [now symmetry|].
  rewrite known_rescale_rename, Hr, Hd, Hb, Hh. reflexivity.
Qed.

End Frame.

(** C6.  The set-build factor is [10 * MAP_SIZE = 10 * 1000 = 10000].
    Rescaling divides the [ns] of a record with [bench = "setbuild"] by it
    and leaves the [ns] of a record of any other bench kind exactly as it
    is; every row of the Aggregator's frame comes from an input record in
    this way. *)
Theorem rescale_setbuild_only :
  Aggregator.SET_BUILD_FACTOR = (10 * 1000)%Z /\
  (forall r : Aggregator.record,
     (Aggregator.bench r = "setbuild" ->
      Aggregator.ns (Aggregator.rescale r) = Aggregator.ns r / 10000) /\
     (Aggregator.bench r <> "setbuild" ->
      Aggregator.ns (Aggregator.rescale r) = Aggregator.ns r)) /\
  (forall input d,
     In d (Aggregator.df input) ->
     exists r, In r input /\
       Aggregator.bench d = Aggregator.bench r /\
       (Aggregator.bench r = "setbuild" ->
        Aggregator.ns d = Aggregator.ns r / 10000) /\
       (Aggregator.bench r <> "setbuild" ->
        Aggregator.ns d = Aggregator.ns r)).
Proof.
  assert (Hr : forall r : Aggregator.record,
     (Aggregator.bench r = "setbuild" ->
      Aggregator.ns (Aggregator.rescale r) = Aggregator.ns r / 10000) /\
     (Aggregator.bench r <> "setbuild" ->
      Aggregator.ns (Aggregator.rescale r) = Aggregator.ns r)).
  { intro r. unfold Aggregator.rescale, Aggregator.divisor; simpl. split.
    - intros ->. reflexivity.
    - intro H. apply String.eqb_neq in H. rewrite H. apply Qdiv_1. }
  split; [reflexivity|]. split; [exact Hr|].
  intros input d Hd. apply df_in in Hd. destruct Hd as [r [Hin [-> _]]].
  exists r. split; [exact Hin|]. split; [reflexivity|].
  apply (Hr (Aggregator.rename r)).
Qed.

Lemma rescale_setbuild_only_witness :
  Aggregator.ns (Aggregator.rescale
    {| Aggregator.bench := "setbuild"; Aggregator.distr := "u32";
       Aggregator.hash := "fxhash"; Aggregator.ns := 10000 |}) == 1 /\
  Aggregator.ns (Aggregator.rescale
    {| Aggregator.bench := "hashonly"; Aggregator.distr := "u32";
       Aggregator.hash := "fxhash"; Aggregator.ns := 7 # 2 |}) = 7 # 2.
Proof.
  destruct rescale_setbuild_only as [_ [H _]]. split.
  - match goal with |- Aggregator.ns (Aggregator.rescale ?r) == _ =>
      rewrite (proj1 (H r) eq_refl) end.
    reflexivity.
  - match goal with |- Aggregator.ns (Aggregator.rescale ?r) = _ =>
      apply (proj2 (H r)) end.
    discriminate.
Defined.

Section Run.

Import Aggregator.

Context {F : Type} (lme : list Q -> F).

Lemma main_nonempty (input : list record) :
  input <> [] -> main lme input = report lme (df input).
Proof. destruct input; [congruence | reflexivity]. Qed.

Lemma summary_nil (d : list record) : summary lme d = [] <-> d = [].
Proof.
  unfold summary. split.
  - intro H. apply map_eq_nil in H. destruct d; [reflexivity|].
    discriminate H.
  - intros ->. reflexivity.
Qed.

(** The report of a frame with rows whose pivot succeeds. *)
Lemma report_ok (d : list record) (t : pivot_table) :
  d <> [] -> pivot d = Ok t ->
  report lme d = ([Table t; Summary (summary lme d)], None).
Proof.
  intros Hd Hp. unfold report. rewrite Hp.
  destruct (summary lme d) eqn:E; [|reflexivity].
  apply summary_nil in E. contradiction.
Qed.

Lemma report_ok_inv (d : list record) (t : pivot_table)
    (s : list (summary_row F)) :
  report lme d = ([Table t; Summary s], None) ->
  pivot d = Ok t /\ s = summary lme d /\ d <> [].
Proof.
  unfold report. destruct (pivot d) as [t'|e]; [|discriminate].
  destruct (summary lme d) as [|x l] eqn:E; [discriminate|].
  intro H. injection H as <- <-. repeat split.
  intros ->. discriminate E.
Qed.

Lemma df_nil : df [] = [].
Proof. reflexivity. Qed.

Lemma main_ok (input : list record) (t : pivot_table)
    (s : list (summary_row F)) :
  main lme input = ([Table t; Summary s], None) ->
  pivot (df input) = Ok t /\ s = summary lme (df input) /\ df input <> [].
Proof.
  destruct input as [|r l]; [discriminate|].
  rewrite main_nonempty by discriminate. apply report_ok_inv.
Qed.

Lemma main_of_pivot (input : list record) (t : pivot_table) :
  df input <> [] -> pivot (df input) = Ok t ->
  main lme input
  = ([Table t; Summary (summary lme (df input))], None).
Proof.
  intros Hd Hp. rewrite main_nonempty.
  - now apply report_ok.
  - intros ->. now apply Hd.
Qed.

End Run.

(** C2, as the code has it.  A record whose [distr], [bench] or renamed
    [hash] has no entry in its ordering table is dropped by the inner
    joins and leaves no trace: when the input holds another record, the
    run on it is the run on the same input without the dropped record,
    whether that run prints its two frames or fails for another reason. *)
Theorem unknown_label_dropped_silently {F : Type} (lme : list Q -> F)
    (l1 l2 : list Aggregator.record) (r : Aggregator.record) :
  Aggregator.known r = false ->
  (l1 ++ l2)%list <> [] ->
  Aggregator.main lme (l1 ++ r :: l2) = Aggregator.main lme (l1 ++ l2).
Proof.
  intros Hk Hne. rewrite !main_nonempty.
  - now rewrite (df_drop_unknown _ _ _ Hk).
  - exact Hne.
  - destruct l1; discriminate.
Qed.

Lemma unknown_label_dropped_silently_witness :
  Aggregator.main Scenario.column_itself
    ([Scenario.registered] ++ Scenario.unregistered :: [])
  = Aggregator.main Scenario.column_itself ([Scenario.registered] ++ []).
Proof.
  apply (unknown_label_dropped_silently Scenario.column_itself
           [Scenario.registered] []).
  - reflexivity.
  - discriminate.
Defined.

(** C2, as the specification states it, fails.  With a record of the
    unregistered hash [xxhash] next to a registered one the run does not
    fail, and what it prints is what it prints without that record: nothing
    signals the dropped row. *)
Lemma unknown_label_vanishes_unsignalled :
  Aggregator.known Scenario.unregistered = false /\
  (exists t s,
     Aggregator.main Scenario.column_itself
       [Scenario.registered; Scenario.unregistered]
     = ([Aggregator.Table t; Aggregator.Summary s], None)) /\
  Aggregator.main Scenario.column_itself
    [Scenario.registered; Scenario.unregistered]
  = Aggregator.main Scenario.column_itself [Scenario.registered].
Proof.
  split; [reflexivity|]. split.
  - eexists. eexists. vm_compute. reflexivity.
  - vm_compute. reflexivity.
Qed.

(** ** The pivot *)

Section Pivot.

Import Aggregator.

Lemma index_eqb_eq (a b : index) : index_eqb a b = true <-> a = b.
Proof.
  destruct a as [a1 a2], b as [b1 b2]. unfold index_eqb; simpl.
  rewrite andb_true_iff, !String.eqb_eq. split.
  - intros [-> ->]. reflexivity.
  - intro H. injection H as -> ->. now split.
Qed.

Lemma unique_in {A : Type} (eqb : A -> A -> bool) (l : list A) (x : A) :
  (forall a b, eqb a b = true <-> a = b) ->
  In x (Pl.unique eqb l) <-> In x l.
Proof.
  intro Heq. induction l as [|y l IH]; simpl; [tauto|].
  rewrite filter_In, IH. split.
  - intros [H|[H _]]; auto.
  - intros [H|H]; [now left|].
    destruct (eqb y x) eqn:E.
    + left. now apply Heq.
    + right. now split.
Qed.

Lemma comprehension_raise_only {A B : Type} (f : A -> result B)
    (l : list A) (e0 e : exn) :
  (forall x e', f x = Raise e' -> e' = e0) ->
  comprehension f l = Raise e -> e = e0.
Proof.
  intro Hf. induction l as [|x l IH]; simpl; [discriminate|].
  destruct (f x) as [y|e'] eqn:Ex; simpl.
  - destruct (comprehension f l) as [ys|e'']; simpl; [discriminate|].
    intro H. injection H as <-. now apply IH.
  - intro H. injection H as <-. now apply (Hf x).
Qed.

Lemma comprehension_raise_in {A B : Type} (f : A -> result B)
    (l : list A) (x : A) (e0 : exn) :
  (forall y e, f y = Raise e -> e = e0) ->
  In x l -> f x = Raise e0 -> comprehension f l = Raise e0.
Proof.
  intros Hf Hin Hx. induction l as [|y l IH]; [destruct Hin|]. simpl.
  destruct (f y) as [b|e] eqn:Ey; simpl.
  - destruct Hin as [->|Hin]; [congruence|].
    now rewrite (IH Hin).
  - now rewrite (Hf y e Ey).
Qed.

Lemma cell_raise_only (d : list record) (i : index) (h : string) (e : exn) :
  cell d i h = Raise e -> e = ComputeError.
Proof.
  unfold cell. destruct (filter (at_key i h) d) as [|r [|r' l]];
    try discriminate. intro H. now injection H.
Qed.

Lemma cell_duplicate (d : list record) (i : index) (h : string) :
  (2 <= List.length (filter (at_key i h) d))%nat ->
  cell d i h = Raise ComputeError.
Proof.
  unfold cell. destruct (filter (at_key i h) d) as [|r [|r' l]]; simpl;
    [lia | lia | reflexivity].
Qed.

(** Two rows of a frame in one cell make the pivot raise. *)
Lemma pivot_duplicate (d : list record) (i : index) (h : string) :
  (2 <= List.length (filter (at_key i h) d))%nat ->
  pivot d = Raise ComputeError.
Proof.
  intro H2.
  assert (Hr : exists r, In r d /\ index_of r = i /\ hash r = h).
  { destruct (filter (at_key i h) d) as [|r l] eqn:E; [simpl in H2; lia|].
    assert (Hin : In r (filter (at_key i h) d)) by (rewrite E; now left).
    apply filter_In in Hin. destruct Hin as [Hin Hk].
    unfold at_key in Hk. apply andb_true_iff in Hk. destruct Hk as [Hi Hh].
    exists r. split; [exact Hin|]. split.
    - now apply index_eqb_eq.
    - now apply String.eqb_eq. }
  destruct Hr as [r [Hin [Hi Hh]]].
  unfold pivot.
  rewrite (comprehension_raise_in _ _ i ComputeError); [reflexivity| | |].
  - intros j e. destruct (comprehension (cell d j) _) as [cs|e'] eqn:E;
      simpl; [discriminate|].
    intro H. injection H as <-.
    eapply comprehension_raise_only; [|exact E].
    intros x e''. apply cell_raise_only.
  - apply unique_in; [apply index_eqb_eq|].
    rewrite <- Hi. now apply in_map.
  - rewrite (comprehension_raise_in _ _ h ComputeError); [reflexivity| | |].
    + intros x e. apply cell_raise_only.
    + apply unique_in; [apply String.eqb_eq|].
      rewrite <- Hh. now apply in_map.
    + now apply cell_duplicate.
Qed.

Lemma filter_map_length {A B : Type} (f : B -> bool) (g : A -> B)
    (l : list A) :
  List.length (filter f (map g l))
  = List.length (filter (fun x => f (g x)) l).
Proof.
  induction l as [|x l IH]; simpl; [reflexivity|].
  destruct (f (g x)); simpl; now rewrite IH.
Qed.

Lemma filter_length_pos {A : Type} (f : A -> bool) (l : list A) (x : A) :
  In x l -> f x = true -> (1 <= List.length (filter f l))%nat.
Proof.
  intros Hin Hx.
  assert (H : In x (filter f l)) by now apply filter_In.
  destruct (filter f l); [destruct H | simpl; lia].
Qed.

Lemma join_intro {A : Type} (key : A -> string) (t : list (string * nat))
    (l : list A) (a : A) :
  In a l -> has_entry t (key a) = true ->
  exists n, In (a, n) (Pl.join key t l).
Proof.
  intros Ha Hk. unfold has_entry in Hk. apply existsb_exists in Hk.
  destruct Hk as [e [He Hk]]. exists (snd e).
  unfold Pl.join. apply in_flat_map. exists a. split; [exact Ha|].
  apply in_map_iff. exists e. split; [reflexivity|].
  now apply filter_In.
Qed.

(** A known record passes the three joins. *)
Lemma joins_known (r : record) :
  known r = true ->
  exists j, In j (joins [rescale (rename r)]) /\
            the_record j = rescale (rename r).
Proof.
  intro Hk. rewrite known_rescale_rename in Hk.
  apply andb_true_iff in Hk. destruct Hk as [Hk Hh].
  apply andb_true_iff in Hk. destruct Hk as [Hd Hb].
  set (x := rescale (rename r)) in *.
  destruct (join_intro distr distr_order_df [x] x (or_introl eq_refl) Hd)
    as [n1 H1].
  destruct (join_intro (fun j => bench (fst j)) bench_order_df _ _ H1 Hb)
    as [n2 H2].
  destruct (join_intro (fun j => hash (fst (fst j))) hash_order_df _ _ H2 Hh)
    as [n3 H3].
  exists (x, n1, n2, n3). split; [exact H3 | reflexivity].
Qed.

Lemma df_filter_length (f : record -> bool) (input : list record) :
  List.length (filter f (df input))
  = List.length (filter (fun j => f (the_record j))
                        (joins (map rescale (map rename input)))).
Proof.
  unfold df. rewrite filter_map_length.
  symmetry. apply filter_length_perm, sort_by_perm.
Qed.

(** Two known input records with one key are two rows of one cell. *)
Lemma df_duplicate (l1 l2 l3 : list record) (r1 r2 : record) :
  known r1 = true -> known r2 = true -> same_key r1 r2 ->
  (2 <= List.length
          (filter (at_key (index_of (rename r1)) (hash (rename r1)))
                  (df (l1 ++ r1 :: l2 ++ r2 :: l3))))%nat.
Proof.
  intros H1 H2 [Hd [Hb Hh]].
  rewrite df_filter_length, !map_app. simpl. rewrite !map_app. simpl.
  set (f := fun j => at_key _ _ (the_record j)).
  set (x1 := rescale (rename r1)). set (x2 := rescale (rename r2)).
  change (x1 :: (map rescale (map rename l2) ++
                 x2 :: map rescale (map rename l3)))%list
    with ([x1] ++ map rescale (map rename l2) ++
          [x2] ++ map rescale (map rename l3))%list.
  rewrite !joins_app, !filter_app, !length_app.
  destruct (joins_known r1 H1) as [j1 [Hj1 E1]].
  destruct (joins_known r2 H2) as [j2 [Hj2 E2]].
  assert (F1 : f j1 = true).
  { unfold f, at_key. rewrite E1. apply andb_true_iff. split.
    - now apply index_eqb_eq.
    - now apply String.eqb_eq. }
  assert (F2 : f j2 = true).
  { unfold f, at_key. rewrite E2. apply andb_true_iff. split.
    - apply index_eqb_eq. unfold index_of; simpl. now rewrite Hd, Hb.
    - apply String.eqb_eq. simpl. simpl in Hh. now rewrite Hh. }
  pose proof (filter_length_pos f _ _ Hj1 F1).
  pose proof (filter_length_pos f _ _ Hj2 F2).
  fold x1 x2 in H, H0. lia.
Qed.

End Pivot.

(** C8.  The pivot has no aggregate function: a frame with two rows of one
    [(distr, bench, hash)] key makes it raise polars' [ComputeError], so
    the run ends without a table, neither value being kept or summed.
    This holds for the pivot on any frame, for the run whenever the frame
    it builds has such rows, and so for any input with two records, both
    with entries in the ordering tables, that share a key once renamed. *)
Theorem duplicate_key_rejected {F : Type} (lme : list Q -> F) :
  (forall d i h,
     (2 <= List.length (filter (Aggregator.at_key i h) d))%nat ->
     Aggregator.pivot d = Raise ComputeError) /\
  (forall input i h,
     (2 <= List.length
             (filter (Aggregator.at_key i h) (Aggregator.df input)))%nat ->
     Aggregator.main lme input = ([], Some ComputeError)) /\
  (forall l1 r1 l2 r2 l3,
     Aggregator.known r1 = true -> Aggregator.known r2 = true ->
     Aggregator.same_key r1 r2 ->
     Aggregator.main lme (l1 ++ r1 :: l2 ++ r2 :: l3)
     = ([], Some ComputeError)).
Proof.
  assert (Hm : forall input i h,
     (2 <= List.length
             (filter (Aggregator.at_key i h) (Aggregator.df input)))%nat ->
     Aggregator.main lme input = ([], Some ComputeError)).
  { intros input i h H. rewrite main_nonempty.
    - unfold Aggregator.report. now rewrite (pivot_duplicate _ _ _ H).
    - intros ->. rewrite df_nil in H. simpl in H. lia. }
  split; [exact pivot_duplicate|]. split; [exact Hm|].
  intros l1 r1 l2 r2 l3 H1 H2 Hk.
  eapply Hm. apply df_duplicate; eassumption.
Qed.

Lemma duplicate_key_rejected_witness :
  Aggregator.main Scenario.column_itself
    ([] ++ Scenario.old_label :: [] ++ Scenario.new_label :: [])
  = ([], Some ComputeError).
Proof.
  apply (proj2 (proj2 (duplicate_key_rejected Scenario.column_itself))).
  - reflexivity.
  - reflexivity.
  - repeat split.
Defined.

(** ** Ranks *)

Section Ranks.

Import Aggregator.

Lemma N2Q_S (n : nat) : N2Q (S n) == N2Q n + 1.
Proof.
  unfold N2Q. rewrite Nat2Z.inj_succ, <- Z.add_1_r, inject_Z_plus.
  reflexivity.
Qed.

Lemma N2Q_le (n m : nat) : (n <= m)%nat -> N2Q n <= N2Q m.
Proof.
  intro H. unfold N2Q. rewrite <- Zle_Qle. now apply Nat2Z.inj_le.
Qed.

Lemma N2Q_nonneg (n : nat) : 0 <= N2Q n.
Proof. apply (N2Q_le 0 n). lia. Qed.

Lemma count_eq_none (v x : Q) (l : list Q) :
  v < x -> Forall (Qle x) l -> count_eq v l = O.
Proof.
  intros Hv. induction 1 as [|y l Hy _ IH]; [reflexivity|].
  rewrite count_eq_cons, IH.
  destruct (Qeq_bool y v) eqn:E; [|reflexivity].
  apply Qeq_bool_iff in E. rewrite E in Hy.
  exfalso. apply (Qlt_not_le _ _ Hv Hy).
Qed.

(** In a sorted column the entries equal to [v] sit in one block, right
    after the entries below [v]: their ordinal ranks are consecutive. *)
Lemma ordinals_Sorted (v : Q) (s : list Q) :
  Sorted Qle s ->
  forall k, Pl.ordinals v s k = seq (S (k + count_lt v s)) (count_eq v s).
Proof.
  induction s as [|x s IH]; intros Hs k; [reflexivity|].
  pose proof (Sorted_head_le _ _ Hs) as Hle.
  apply Sorted_inv in Hs. destruct Hs as [Hs _].
  simpl Pl.ordinals. rewrite count_lt_cons, count_eq_cons, (IH Hs).
  destruct (Qeq_bool x v) eqn:E.
  - apply Qeq_bool_iff in E.
    assert (Hlt : lt x v = false) by (apply lt_false; rewrite E; apply Qle_refl).
    assert (H0 : count_lt v s = O).
    { apply count_lt_none. eapply Forall_impl; [|exact Hle].
      intros y Hy. now rewrite <- E. }
    rewrite Hlt, H0. simpl. now rewrite !Nat.add_0_r.
  - destruct (lt x v) eqn:Hlt.
    + simpl. f_equal. lia.
    + assert (Hv : v < x).
      { apply lt_false in Hlt. apply Qle_lteq in Hlt.
        destruct Hlt as [Hlt|Heq]; [exact Hlt|].
        symmetry in Heq. apply Qeq_bool_iff in Heq. congruence. }
      now rewrite (count_eq_none _ _ _ Hv Hle).
Qed.

Lemma sum_ordinals (a c : nat) :
  Pl.sum (map (fun i => inject_Z (Z.of_nat i)) (seq a c))
  == N2Q c * N2Q a + N2Q c * (N2Q c - 1) / 2.
Proof.
  revert a. induction c as [|c IH]; intro a.
  - simpl. unfold N2Q. simpl. field.
  - simpl seq. simpl map. simpl Pl.sum. rewrite IH.
    fold (N2Q a). rewrite !N2Q_S. field.
Qed.

Lemma count_eq_perm (v : Q) (l l' : list Q) :
  Permutation l l' -> count_eq v l = count_eq v l'.
Proof. apply filter_length_perm. Qed.

Lemma count_lt_perm (v : Q) (l l' : list Q) :
  Permutation l l' -> count_lt v l = count_lt v l'.
Proof. apply filter_length_perm. Qed.

(** The rank of a value present in the column: the number of entries
    below it, plus the mean of 1, ..., number of entries equal to it. *)
Lemma rank_closed_form (col : list Q) (v : Q) :
  (1 <= count_eq v col)%nat ->
  Pl.rank col v == N2Q (count_lt v col) + (N2Q (count_eq v col) + 1) / 2.
Proof.
  intro Hc. unfold Pl.rank, Pl.mean.
  rewrite (ordinals_Sorted _ _ (sorted_Sorted col)), length_map, length_seq.
  rewrite sum_ordinals.
  rewrite <- (count_eq_perm v _ _ (sorted_perm col)).
  rewrite <- (count_lt_perm v _ _ (sorted_perm col)).
  fold (N2Q (count_eq v col)). simpl Nat.add. rewrite N2Q_S.
  assert (H : ~ N2Q (count_eq v col) == 0).
  { intro H0. pose proof (N2Q_le _ _ Hc) as H1. rewrite H0 in H1.
    revert H1. unfold N2Q. simpl. apply Qlt_not_le. reflexivity. }
  field. exact H.
Qed.

Lemma count_lt_eq_length (v : Q) (l : list Q) :
  (count_lt v l + count_eq v l <= List.length l)%nat.
Proof.
  induction l as [|x l IH]; [apply Nat.le_refl|].
  rewrite count_lt_cons, count_eq_cons. simpl List.length.
  destruct (lt x v) eqn:Hlt, (Qeq_bool x v) eqn:Heq; try lia.
  apply lt_spec in Hlt. apply Qeq_bool_iff in Heq. rewrite Heq in Hlt.
  exfalso. apply (Qlt_irrefl _ Hlt).
Qed.

(** A rank lies between 1 and the size of the column. *)
Lemma rank_bounds (col : list Q) (v : Q) :
  (1 <= count_eq v col)%nat ->
  1 <= Pl.rank col v <= N2Q (List.length col).
Proof.
  intro Hc. rewrite (rank_closed_form _ _ Hc).
  pose proof (N2Q_le _ _ Hc) as H1.
  pose proof (N2Q_nonneg (count_lt v col)) as H2.
  pose proof (N2Q_le _ _ (count_lt_eq_length v col)) as H3.
  assert (E : N2Q (count_lt v col + count_eq v col)
              == N2Q (count_lt v col) + N2Q (count_eq v col)).
  { unfold N2Q. now rewrite Nat2Z.inj_add, inject_Z_plus. }
  rewrite E in H3. change (N2Q 1) with 1 in H1.
  setoid_replace ((N2Q (count_eq v col) + 1) / 2)
    with ((N2Q (count_eq v col) + 1) * (1 # 2)) by field.
  split; lra.
Qed.

Lemma sum_bounds (lo hi : Q) (l : list Q) :
  Forall (fun x => lo <= x <= hi) l ->
  N2Q (List.length l) * lo <= Pl.sum l <= N2Q (List.length l) * hi.
Proof.
  induction 1 as [|x l [Hlo Hhi] _ IH].
  - change (0 * lo <= 0 <= 0 * hi). lra.
  - simpl List.length. simpl Pl.sum.
    assert (E1 : N2Q (S (List.length l)) * lo == N2Q (List.length l) * lo + lo)
      by (rewrite N2Q_S; ring).
    assert (E2 : N2Q (S (List.length l)) * hi == N2Q (List.length l) * hi + hi)
      by (rewrite N2Q_S; ring).
    rewrite E1, E2. lra.
Qed.

(** The mean of a non-empty column lies between its bounds. *)
Lemma mean_bounds (lo hi : Q) (l : list Q) :
  l <> [] -> Forall (fun x => lo <= x <= hi) l ->
  lo <= Pl.mean l <= hi.
Proof.
  intros Hne H. destruct (sum_bounds _ _ _ H) as [H1 H2].
  assert (Hn : 0 < N2Q (List.length l)).
  { destruct l as [|x l]; [congruence|]. simpl List.length.
    rewrite N2Q_S. pose proof (N2Q_nonneg (List.length l)). lra. }
  unfold Pl.mean. fold (N2Q (List.length l)). split.
  - apply Qle_shift_div_l; [exact Hn|]. lra.
  - apply Qle_shift_div_r; [exact Hn|]. lra.
Qed.

End Ranks.

(** ** Ranks inside the frame *)

Section FrameRanks.

Import Aggregator.

Lemma pivot_ok_unique_keys (d : list record) (t : pivot_table) :
  pivot d = Ok t -> unique_keys d.
Proof.
  intros Hp i h.
  destruct (le_lt_dec (List.length (filter (at_key i h) d)) 1) as [H|H];
    [exact H|].
  rewrite (pivot_duplicate d i h) in Hp by lia. discriminate Hp.
Qed.

Lemma pivot_ok_columns (d : list record) (t : pivot_table) :
  pivot d = Ok t -> List.length (columns t) = number_of_hashes d.
Proof.
  unfold pivot. destruct (comprehension _ _) as [rs|e]; simpl;
    [|discriminate].
  intro H. injection H as <-. reflexivity.
Qed.

Lemma filter_filter_and {A : Type} (f g : A -> bool) (l : list A) :
  filter g (filter f l) = filter (fun x => f x && g x) l.
Proof.
  induction l as [|x l IH]; simpl; [reflexivity|].
  destruct (f x); simpl; [destruct (g x)|]; now rewrite IH.
Qed.

Lemma filter_none {A : Type} (f : A -> bool) (l : list A) :
  (forall x, In x l -> f x = false) -> filter f l = [].
Proof.
  induction l as [|x l IH]; simpl; intro H; [reflexivity|].
  rewrite (H x (or_introl eq_refl)). apply IH. intros y Hy. apply H. now right.
Qed.

Lemma filter_at_most_one {A : Type} (f : A -> bool) (l : list A) (a b : A) :
  (List.length (filter f l) <= 1)%nat ->
  In a l -> In b l -> f a = true -> f b = true -> a = b.
Proof.
  intros Hlen Ha Hb Fa Fb.
  assert (Ia : In a (filter f l)) by now apply filter_In.
  assert (Ib : In b (filter f l)) by now apply filter_In.
  destruct (filter f l) as [|x [|y l']]; simpl in *; [tauto | | lia].
  destruct Ia as [<-|[]], Ib as [<-|[]]. reflexivity.
Qed.

Lemma NoDup_map_counts {A : Type} (f : A -> string) (l : list A) :
  (forall h, (List.length (filter (fun r => String.eqb (f r) h) l) <= 1)%nat) ->
  NoDup (map f l).
Proof.
  induction l as [|x l IH]; intro H; simpl; constructor.
  - intro Hin. apply in_map_iff in Hin. destruct Hin as [y [Hy Hin]].
    specialize (H (f x)). simpl in H. rewrite String.eqb_refl in H.
    assert (1 <= List.length
                   (filter (fun r => String.eqb (f r) (f x)) l))%nat.
    { apply (filter_length_pos _ _ y Hin). now apply String.eqb_eq. }
    simpl in H. lia.
  - apply IH. intro h. specialize (H h). simpl in H.
    destruct (String.eqb (f x) h); simpl in H; lia.
Qed.

Lemma window_rows_in (d : list record) (r r' : record) :
  In r' (window_rows d r) <-> In r' d /\ index_of r' = index_of r.
Proof.
  unfold window_rows. rewrite filter_In, index_eqb_eq. reflexivity.
Qed.

Lemma window_rows_at_key (d : list record) (r : record) (h : string) :
  filter (fun r' => String.eqb (hash r') h) (window_rows d r)
  = filter (at_key (index_of r) h) d.
Proof. unfold window_rows. now rewrite filter_filter_and. Qed.

(** With one row per cell a window holds at most one row per hash. *)
Lemma window_length (d : list record) (r : record) :
  unique_keys d ->
  (List.length (window d r) <= number_of_hashes d)%nat.
Proof.
  intro Hu. unfold window. fold (window_rows d r).
  rewrite length_map, <- (length_map hash).
  apply NoDup_incl_length.
  - apply NoDup_map_counts. intro h. rewrite window_rows_at_key. apply Hu.
  - intros h Hh. apply in_map_iff in Hh. destruct Hh as [r' [<- Hr']].
    apply window_rows_in in Hr'. destruct Hr' as [Hr' _].
    apply unique_in; [apply String.eqb_eq|]. now apply in_map.
Qed.

Lemma window_count_eq (d : list record) (r : record) :
  count_eq (ns r) (window d r)
  = List.length (filter (fun r' => Qeq_bool (ns r') (ns r)) (window_rows d r)).
Proof. unfold count_eq, window. apply filter_map_length. Qed.

Lemma window_count_lt (d : list record) (r : record) :
  count_lt (ns r) (window d r)
  = List.length (filter (fun r' => lt (ns r') (ns r)) (window_rows d r)).
Proof. unfold count_lt, window. apply filter_map_length. Qed.

Lemma in_window (d : list record) (r : record) :
  In r d -> (1 <= count_eq (ns r) (window d r))%nat.
Proof.
  intro Hin. rewrite window_count_eq. apply (filter_length_pos _ _ r).
  - apply window_rows_in. now split.
  - apply Qeq_bool_iff. reflexivity.
Qed.

Lemma rank_of_bounds (d : list record) (r : record) :
  unique_keys d -> In r d ->
  1 <= rank_of d r <= N2Q (number_of_hashes d).
Proof.
  intros Hu Hin. unfold rank_of.
  destruct (rank_bounds _ _ (in_window d r Hin)) as [H1 H2].
  split; [exact H1|].
  eapply Qle_trans; [exact H2|]. apply N2Q_le. now apply window_length.
Qed.

(** In a window of a frame with one row per cell, the row of a strictly
    fastest hash has nothing below it and nothing equal to it but itself. *)
Lemma rank_of_fastest (d : list record) (r : record) :
  unique_keys d -> In r d -> strictly_fastest d (hash r) ->
  rank_of d r == 1.
Proof.
  intros Hu Hin Hf.
  assert (Hsame : forall r', In r' (window_rows d r) ->
            hash r' = hash r -> r' = r).
  { intros r' Hr' Hh. apply window_rows_in in Hr'. destruct Hr' as [Hr' Hi].
    apply (filter_at_most_one (at_key (index_of r) (hash r)) d);
      [apply Hu | exact Hr' | exact Hin | |].
    - unfold at_key. apply andb_true_iff. split;
        [now apply index_eqb_eq | now apply String.eqb_eq].
    - unfold at_key. apply andb_true_iff. split;
        [now apply index_eqb_eq | now apply String.eqb_eq]. }
  assert (Hother : forall r', In r' (window_rows d r) ->
            hash r' <> hash r -> ns r < ns r').
  { intros r' Hr' Hh. apply window_rows_in in Hr'. destruct Hr' as [Hr' Hi].
    now apply (Hf r r'). }
  assert (Hlt : count_lt (ns r) (window d r) = O).
  { rewrite window_count_lt, filter_none; [reflexivity|].
    intros r' Hr'. apply lt_false.
    destruct (String.eqb (hash r') (hash r)) eqn:E.
    - apply String.eqb_eq in E. rewrite (Hsame r' Hr' E). apply Qle_refl.
    - apply String.eqb_neq in E. apply Qlt_le_weak. now apply Hother. }
  assert (Heq : count_eq (ns r) (window d r) = 1%nat).
  { rewrite window_count_eq.
    rewrite (filter_ext_in _ (fun r' => String.eqb (hash r') (hash r))).
    - rewrite window_rows_at_key.
      assert (1 <= List.length (filter (at_key (index_of r) (hash r)) d))%nat.
      { apply (filter_length_pos _ _ r Hin). unfold at_key.
        apply andb_true_iff. split;
          [now apply index_eqb_eq | now apply String.eqb_eq]. }
      specialize (Hu (index_of r) (hash r)). lia.
    - intros r' Hr'. destruct (String.eqb (hash r') (hash r)) eqn:E.
      + apply String.eqb_eq in E. rewrite (Hsame r' Hr' E).
        apply Qeq_bool_iff. reflexivity.
      + apply String.eqb_neq in E. pose proof (Hother r' Hr' E) as Hn.
        destruct (Qeq_bool (ns r') (ns r)) eqn:Q; [|reflexivity].
        apply Qeq_bool_iff in Q. rewrite Q in Hn.
        exfalso. apply (Qlt_irrefl _ Hn). }
  unfold rank_of. rewrite rank_closed_form by (rewrite Heq; lia).
  rewrite Hlt, Heq. reflexivity.
Qed.

Lemma group_in (d : list record) (h : string) (r : record) :
  In r (group d h) <-> In r d /\ hash r = h.
Proof. unfold group. rewrite filter_In, String.eqb_eq. reflexivity. Qed.

Lemma group_nonempty (d : list record) (h : string) :
  In h (Pl.unique String.eqb (map hash d)) -> group d h <> [].
Proof.
  intros Hh E. apply unique_in in Hh; [|apply String.eqb_eq].
  apply in_map_iff in Hh. destruct Hh as [r [Hr Hin]].
  assert (H : In r (group d h)) by now apply group_in.
  rewrite E in H. destruct H.
Qed.

(** The average rank of a hash of the frame, between a lower and an upper
    bound that all its ranks respect. *)
Lemma avg_rank_between (d : list record) (h : string) (lo hi : Q) :
  In h (Pl.unique String.eqb (map hash d)) ->
  (forall r, In r d -> hash r = h -> lo <= rank_of d r <= hi) ->
  lo <= avg_rank d h <= hi.
Proof.
  intros Hh Hr. unfold avg_rank. apply mean_bounds.
  - intro E. apply map_eq_nil in E. now apply (group_nonempty d h Hh).
  - apply Forall_forall. intros x Hx. apply in_map_iff in Hx.
    destruct Hx as [r [<- Hin]]. apply group_in in Hin.
    destruct Hin as [Hin Hhash]. now apply Hr.
Qed.

Lemma summary_in {F : Type} (lme : list Q -> F) (d : list record)
    (row : summary_row F) :
  In row (summary lme d) ->
  In (s_hash row) (Pl.unique String.eqb (map hash d)) /\
  s_avg_rank row = avg_rank d (s_hash row).
Proof.
  unfold summary. intro H. apply in_map_iff in H.
  destruct H as [h [<- Hh]]. now split.
Qed.

(** The rank of a row counts the rows of its own group. *)
Lemma rank_of_peers (d : list record) (r : record) :
  In r d ->
  rank_of d r == N2Q (peers_below d r) + (N2Q (peers_tied d r) + 1) / 2.
Proof.
  intro Hin. unfold rank_of.
  rewrite (rank_closed_form _ _ (in_window d r Hin)).
  rewrite window_count_lt, window_count_eq.
  unfold window_rows. rewrite !filter_filter_and. reflexivity.
Qed.

End FrameRanks.

Section ScenarioFacts.

Import Aggregator Scenario.

Lemma summary_row_in {F : Type} (lme : list Q -> F) (d : list record)
    (h : string) :
  In h (Pl.unique String.eqb (map hash d)) ->
  In {| s_hash := h; s_avg_rank := avg_rank d h;
        s_geometric_mean := geometric_mean lme d h |} (summary lme d).
Proof.
  intro H. unfold summary.
  apply (in_map (fun h => {| s_hash := h; s_avg_rank := avg_rank d h;
                             s_geometric_mean := geometric_mean lme d h |})).
  exact H.
Qed.

(** The scenario of the specification: ranks [1, 2] in one group and
    [2, 1] in the other give both hashes the average rank 1.5. *)
Example avg_rank_two_groups :
  avg_rank (df two_groups) "foldhash-f" == 3 # 2 /\
  avg_rank (df two_groups) "ahash" == 3 # 2.
Proof. split; vm_compute; reflexivity. Qed.

End ScenarioFacts.

(** C4.  The rank of a row is taken inside its [(distr, bench)] group,
    ascending in [ns] with the average tie-break: the number of rows of
    the group with a smaller [ns], plus the mean of 1, ..., number of rows
    of the group with an equal [ns].  In the sorted column these tied
    entries hold consecutive ordinal ranks right after the smaller ones,
    and the rank is their mean.  [avg_rank] is the mean of the ranks of
    the rows of a hash, over all groups.  When the run prints its frames,
    every hash of the summary has an [avg_rank] between 1 and the number
    of hashes, and a hash strictly fastest in every group it appears in
    has [avg_rank] equal to 1. *)
Theorem avg_rank_within_bounds {F : Type} (lme : list Q -> F) :
  (forall d r, In r d ->
     Aggregator.rank_of d r
     == N2Q (peers_below d r) + (N2Q (peers_tied d r) + 1) / 2) /\
  (forall col v, (1 <= count_eq v col)%nat ->
     Pl.ordinals v (sorted col) 0
     = seq (S (count_lt v col)) (count_eq v col) /\
     Pl.rank col v
     == N2Q (count_lt v col) + (N2Q (count_eq v col) + 1) / 2) /\
  (forall d h,
     Aggregator.avg_rank d h
     == Pl.sum (map (Aggregator.rank_of d) (rows_of_hash d h))
        / N2Q (List.length (rows_of_hash d h))) /\
  (forall input t s,
     Aggregator.main lme input
     = ([Aggregator.Table t; Aggregator.Summary s], None) ->
     map Aggregator.s_hash s
     = Pl.unique String.eqb (map Aggregator.hash (Aggregator.df input)) /\
     List.length s = Aggregator.number_of_hashes (Aggregator.df input) /\
     List.length (Aggregator.columns t)
     = Aggregator.number_of_hashes (Aggregator.df input) /\
     (forall row, In row s ->
        Aggregator.s_avg_rank row
        = Aggregator.avg_rank (Aggregator.df input)
                              (Aggregator.s_hash row))) /\
  (forall input t s row,
     Aggregator.main lme input
     = ([Aggregator.Table t; Aggregator.Summary s], None) ->
     In row s ->
     1 <= Aggregator.s_avg_rank row
       <= N2Q (Aggregator.number_of_hashes (Aggregator.df input))) /\
  (forall input t s row,
     Aggregator.main lme input
     = ([Aggregator.Table t; Aggregator.Summary s], None) ->
     In row s ->
     Aggregator.strictly_fastest (Aggregator.df input)
                                 (Aggregator.s_hash row) ->
     Aggregator.s_avg_rank row == 1).
Proof.
  split; [|split; [|split; [|split; [|split]]]].
  - apply rank_of_peers.
  - intros col v Hc. split; [|now apply rank_closed_form].
    rewrite (ordinals_Sorted _ _ (sorted_Sorted col)). simpl Nat.add.
    now rewrite <- (count_eq_perm v _ _ (sorted_perm col)),
                <- (count_lt_perm v _ _ (sorted_perm col)).
  - intros d h. unfold Aggregator.avg_rank, Pl.mean, Aggregator.group,
      rows_of_hash, N2Q.
    rewrite length_map. reflexivity.
  - intros input t s Hm. apply main_ok in Hm. destruct Hm as [Hp [-> _]].
    split; [|split; [|split]].
    + unfold Aggregator.summary. rewrite map_map. simpl. apply map_id.
    + unfold Aggregator.summary. apply length_map.
    + now apply pivot_ok_columns.
    + intros row Hin. now apply summary_in in Hin.
  - intros input t s row Hm Hin. apply main_ok in Hm.
    destruct Hm as [Hp [-> _]].
    apply summary_in in Hin. destruct Hin as [Hh ->].
    apply avg_rank_between; [exact Hh|].
    intros r Hr _. apply rank_of_bounds; [|exact Hr].
    now apply (pivot_ok_unique_keys _ t).
  - intros input t s row Hm Hin Hf. apply main_ok in Hm.
    destruct Hm as [Hp [-> _]].
    apply summary_in in Hin. destruct Hin as [Hh ->].
    apply Qle_antisym; apply (avg_rank_between _ _ 1 1); trivial;
      intros r Hr Hhash;
      (rewrite rank_of_fastest;
       [split; apply Qle_refl
       | now apply (pivot_ok_unique_keys _ t)
       | exact Hr
       | now rewrite Hhash]).
Qed.

Lemma avg_rank_within_bounds_witness :
  1 <= Aggregator.avg_rank (Aggregator.df Scenario.two_groups) "ahash"
    <= N2Q (Aggregator.number_of_hashes (Aggregator.df Scenario.two_groups))
  /\ Aggregator.avg_rank (Aggregator.df Scenario.one_fastest) "foldhash-f"
     == 1.
Proof.
  destruct (avg_rank_within_bounds Scenario.column_itself)
    as [_ [_ [_ [_ [Hb Hf]]]]].
  split.
  - assert (Hm : exists t,
              Aggregator.main Scenario.column_itself Scenario.two_groups
              = ([Aggregator.Table t;
                  Aggregator.Summary
                    (Aggregator.summary Scenario.column_itself
                       (Aggregator.df Scenario.two_groups))], None)).
    { eexists. apply main_of_pivot; [vm_compute; discriminate|].
      vm_compute. reflexivity. }
    destruct Hm as [t Hm].
    assert (Hin : In "ahash"
              (Pl.unique String.eqb
                 (map Aggregator.hash (Aggregator.df Scenario.two_groups))))
      by (vm_compute; auto).
    apply (Hb _ _ _ _ Hm (summary_row_in _ _ "ahash" Hin)).
  - assert (Hm : exists t,
              Aggregator.main Scenario.column_itself Scenario.one_fastest
              = ([Aggregator.Table t;
                  Aggregator.Summary
                    (Aggregator.summary Scenario.column_itself
                       (Aggregator.df Scenario.one_fastest))], None)).
    { eexists. apply main_of_pivot; [vm_compute; discriminate|].
      vm_compute. reflexivity. }
    destruct Hm as [t Hm].
    assert (Hin : In "foldhash-f"
              (Pl.unique String.eqb
                 (map Aggregator.hash (Aggregator.df Scenario.one_fastest))))
      by (vm_compute; auto).
    apply (Hf _ _ _ _ Hm (summary_row_in _ _ "foldhash-f" Hin)).
    intros r r' Hr Hr' Hh Hh' Hi.
    assert (E : Aggregator.df Scenario.one_fastest
                = [ Scenario.rec "hashonly" "u32" "foldhash-f" 5;
                    Scenario.rec "hashonly" "u32" "ahash" 10;
                    Scenario.rec "lookuphit" "u32" "foldhash-f" 4;
                    Scenario.rec "lookuphit" "u32" "ahash" 5 ]).
    { vm_compute. reflexivity. }
    rewrite E in Hr, Hr'. simpl in Hh.
    destruct Hr as [<-|[<-|[<-|[<-|[]]]]]; try discriminate Hh;
      destruct Hr' as [<-|[<-|[<-|[<-|[]]]]];
      try discriminate Hi; try (exfalso; apply Hh'; reflexivity);
      reflexivity.
Defined.

(** * Further properties of the Extractor *)

Section ExtractorMore.

Import Extractor.

Lemma truediv_raise_only (tn : Q * Q) (e : exn) :
  truediv (fst tn) (snd tn) = Raise e -> e = ZeroDivisionError.
Proof.
  unfold truediv. destruct (Qeq_bool (snd tn) 0); [|discriminate].
  intro H. now injection H.
Qed.

Lemma truediv_zero (tn : Q * Q) :
  snd tn == 0 -> truediv (fst tn) (snd tn) = Raise ZeroDivisionError.
Proof.
  intro H. unfold truediv. apply Qeq_bool_iff in H. now rewrite H.
Qed.

(** What a successful comprehension says of its input. *)
Lemma comprehension_truediv_inv (l : list (Q * Q)) (ys : list Q) :
  comprehension (fun tn => truediv (fst tn) (snd tn)) l = Ok ys ->
  Forall (fun tn => ~ snd tn == 0) l /\ ys = map per_iteration l.
Proof.
  revert ys. induction l as [|tn l IH]; simpl; intros ys H.
  - injection H as <-. now split.
  - unfold truediv at 1 in H.
    destruct (Qeq_bool (snd tn) 0) eqn:E; [discriminate|]. simpl in H.
    destruct (comprehension _ l) as [zs|]; [|discriminate]. simpl in H.
    injection H as <-. destruct (IH zs eq_refl) as [Hf ->].
    split; [|reflexivity]. constructor; [|exact Hf].
    intro H0. apply Qeq_bool_iff in H0. congruence.
Qed.

Lemma robust_inv (times iters : list Q) (r : Q) :
  robust times iters = Ok r ->
  well_formed times iters /\
  nth_error (sorted (latencies times iters))
            (List.length (combine times iters) / 10) = Some r.
Proof.
  unfold robust, sample_times. intro H.
  destruct (comprehension _ _) as [ys|] eqn:E; [|discriminate].
  destruct (comprehension_truediv_inv _ _ E) as [Hwf ->].
  split; [exact Hwf|]. cbn [bind] in H. unfold getitem in H.
  rewrite sorted_length, length_map in H.
  destruct (nth_error _ _) as [x|]; [|discriminate].
  injection H as <-. reflexivity.
Qed.

Lemma combine_app_l (a b e : list Q) :
  List.length a = List.length b -> combine (a ++ e) b = combine a b.
Proof.
  revert b. induction a as [|x a IH]; intros [|y b] H; simpl in *;
    try discriminate.
  - now destruct e.
  - f_equal. apply IH. lia.
Qed.

Lemma combine_app_r (a b e : list Q) :
  List.length a = List.length b -> combine a (b ++ e) = combine a b.
Proof.
  revert b. induction a as [|x a IH]; intros [|y b] H; simpl in *;
    try discriminate; [reflexivity|].
  f_equal. apply IH. lia.
Qed.

Lemma robust_combine (times iters times' iters' : list Q) :
  combine times iters = combine times' iters' ->
  robust times iters = robust times' iters'.
Proof. unfold robust, sample_times. now intros ->. Qed.

Variable str : Q -> string.

Lemma loop_ok (arts : list artifact) (lines : list string) :
  comprehension (body str) arts = Ok lines ->
  forall out, loop str arts out = ((out ++ lines)%list, None).
Proof.
  revert lines. induction arts as [|a arts IH]; simpl; intros lines H out.
  - injection H as <-. now rewrite app_nil_r.
  - destruct (body str a) as [line|]; [|discriminate]. simpl in H.
    destruct (comprehension (body str) arts) as [ls|]; [|discriminate].
    injection H as <-. rewrite (IH ls eq_refl). now rewrite <- app_assoc.
Qed.

Lemma loop_extends (arts : list artifact) (out : list string) :
  exists rest,
    fst (loop str arts out) = (out ++ rest)%list /\
    (List.length rest <= List.length arts)%nat.
Proof.
  revert out. induction arts as [|a arts IH]; intro out; simpl.
  - exists []. split; [now rewrite app_nil_r | simpl; lia].
  - destruct (body str a) as [line|e].
    + destruct (IH (out ++ [line])%list) as [rest [E L]].
      exists (line :: rest). split; [|simpl; lia].
      rewrite E. now rewrite <- app_assoc.
    + exists []. split; [now rewrite app_nil_r | simpl; lia].
Qed.

End ExtractorMore.

(** X1.  An iteration count equal to zero among the zipped pairs makes the
    division raise [ZeroDivisionError], whatever the other samples are. *)
Theorem zero_iters_raises (times iters : list Q) :
  Exists (fun tn => snd tn == 0) (combine times iters) ->
  Extractor.robust times iters = Raise ZeroDivisionError.
Proof.
  intro H. apply Exists_exists in H. destruct H as [tn [Hin Hz]].
  unfold Extractor.robust, Extractor.sample_times.
  rewrite (comprehension_raise_in _ _ tn ZeroDivisionError); trivial.
  - intros y e. apply truediv_raise_only.
  - now apply truediv_zero.
Qed.

Lemma zero_iters_raises_witness :
  Extractor.robust [3; 4] [1; 0] = Raise ZeroDivisionError.
Proof.
  apply (zero_iters_raises [3; 4] [1; 0]).
  apply Exists_cons_tl, Exists_cons_hd. reflexivity.
Defined.

(** X2.  The estimate exists exactly when the sample set has a pair and no
    zero iteration count; it is then one of the per-iteration latencies,
    computed from one of the pairs. *)
Theorem robust_defined_iff (times iters : list Q) :
  ((exists r, Extractor.robust times iters = Ok r) <->
   (well_formed times iters /\ combine times iters <> [])) /\
  (forall r, Extractor.robust times iters = Ok r ->
     exists t n, In (t, n) (combine times iters) /\ r = t / n).
Proof.
  split; [split|].
  - intros [r Hr]. destruct (robust_inv _ _ _ Hr) as [Hwf Hn].
    split; [exact Hwf|]. intro E. rewrite E in Hn.
    unfold latencies in Hn. rewrite E in Hn. discriminate Hn.
  - intros [Hwf Hne]. destruct (robust_ok times iters Hwf) as [r [Hr _]].
    + destruct (combine times iters); [congruence | simpl; lia].
    + now exists r.
  - intros r Hr. destruct (robust_inv _ _ _ Hr) as [_ Hn].
    apply nth_error_In in Hn.
    apply (Permutation_in _ (Permutation_sym (sorted_perm _))) in Hn.
    unfold latencies in Hn. apply in_map_iff in Hn.
    destruct Hn as [[t n] [E Hin]]. exists t, n. split; [exact Hin|].
    now symmetry.
Qed.

Lemma robust_defined_iff_witness :
  exists t n, In (t, n) (combine [30; 10; 20] [2; 1; 4]) /\ 20 # 4 = t / n.
Proof.
  apply (proj2 (robust_defined_iff [30; 10; 20] [2; 1; 4])).
  vm_compute. reflexivity.
Defined.

(** X3.  [zip] stops at the shorter list: entries of [times] or of [iters]
    beyond the length of the other are ignored, without an error. *)
Theorem unpaired_samples_ignored (times iters extra : list Q) :
  List.length times = List.length iters ->
  Extractor.robust (times ++ extra) iters = Extractor.robust times iters /\
  Extractor.robust times (iters ++ extra) = Extractor.robust times iters.
Proof.
  intro H. split; apply robust_combine.
  - now apply combine_app_l.
  - now apply combine_app_r.
Qed.

Lemma unpaired_samples_ignored_witness :
  Extractor.robust ([30; 10] ++ [1; 2; 3]) [2; 1]
  = Extractor.robust [30; 10] [2; 1] /\
  Extractor.robust [30; 10] ([2; 1] ++ [1; 2; 3])
  = Extractor.robust [30; 10] [2; 1].
Proof.
  apply (unpaired_samples_ignored [30; 10] [2; 1] [1; 2; 3]). reflexivity.
Defined.



(** X5.  The run prints the header first in every case, then at most one
    line per artifact; when the body succeeds on every artifact it prints
    exactly their rows, in order, and ends without an error. *)
Theorem main_prints_header_then_rows
    (str : Q -> string) (arts : list Extractor.artifact) :
  (exists rest,
     fst (Extractor.main str arts) = Extractor.header :: rest /\
     (List.length rest <= List.length arts)%nat) /\
  (forall lines, comprehension (Extractor.body str) arts = Ok lines ->
     Extractor.main str arts = (Extractor.header :: lines, None) /\
     List.length lines = List.length arts).
Proof.
  split.
  - apply (loop_extends str arts [Extractor.header]).
  - intros lines H. split.
    + unfold Extractor.main. now rewrite (loop_ok str arts lines H).
    + revert lines H.
      induction arts as [|a arts IH]; simpl; intros lines H.
      * now injection H as <-.
      * destruct (Extractor.body str a); [|discriminate]. simpl in H.
        destruct (comprehension _ arts) as [ls|]; [|discriminate].
        injection H as <-. simpl. now rewrite (IH ls eq_refl).
Qed.

Lemma main_prints_header_then_rows_witness :
  Extractor.main Scenario.show [Scenario.short_label; Scenario.short_label]
  = ([Extractor.header; "hashonly,u32,12.5"; "hashonly,u32,12.5"], None).
Proof.
  apply (proj2 (main_prints_header_then_rows Scenario.show
                  [Scenario.short_label; Scenario.short_label])).
  reflexivity.
Defined.

(** X6.  For a label [<bench>-<distr>-<hash>] whose first two fields hold
    no dash, the row is the three fields and the rendered estimate
    separated by commas; when the fields hold no comma, splitting the row
    at its commas gives the four values back. *)
Theorem row_of_full_label
    (str : Q -> string) (bench distr hash : string) (r : Q) :
  count_char "-" bench = O ->
  count_char "-" distr = O ->
  Extractor.row str (bench ++ "-" ++ distr ++ "-" ++ hash) r
  = bench ++ "," ++ distr ++ "," ++ hash ++ "," ++ str r /\
  (count_char "," bench = O -> count_char "," distr = O ->
   count_char "," hash = O ->
   split "," 3 (Extractor.row str (bench ++ "-" ++ distr ++ "-" ++ hash) r)
   = [bench; distr; hash; str r]).
Proof.
  intros Hb Hd.
  assert (E : Extractor.row str (bench ++ "-" ++ distr ++ "-" ++ hash) r
              = bench ++ "," ++ distr ++ "," ++ hash ++ "," ++ str r).
  { unfold Extractor.row.
    change (bench ++ "-" ++ distr ++ "-" ++ hash)
      with (bench ++ String "-" (distr ++ String "-" hash)).
    rewrite (split_three _ _ _ Hb Hd).
    unfold join. simpl String.concat.
    rewrite append_assoc. simpl. rewrite append_assoc. reflexivity. }
  split; [exact E|]. intros Cb Cd Ch. rewrite E.
  change (bench ++ "," ++ distr ++ "," ++ hash ++ "," ++ str r)
    with (bench ++ String "," (distr ++ String "," (hash ++ String "," (str r)))).
  simpl split.
  rewrite (cut_app _ _ _ Cb), (cut_app _ _ _ Cd), (cut_app _ _ _ Ch).
  reflexivity.
Qed.

Lemma row_of_full_label_witness :
  Extractor.row Scenario.show
    ("hashonly" ++ "-" ++ "u32" ++ "-" ++ "foldhash-fast") (25 # 2)
  = "hashonly,u32,foldhash-fast,12.5".
Proof.
  apply (proj1 (row_of_full_label Scenario.show
                  "hashonly" "u32" "foldhash-fast" (25 # 2)
                  eq_refl eq_refl)).
Defined.

(** * Further properties of the Aggregator *)

Section Normalize.

Import Aggregator.

Lemma replace_name_repl (s : string) :
  Pl.replace name_repl s
  = if String.eqb s "foldhash-fast" then "foldhash-f"
    else if String.eqb s "foldhash-quality" then "foldhash-q" else s.
Proof. reflexivity. Qed.

Lemma replace_idempotent (s : string) :
  Pl.replace name_repl (Pl.replace name_repl s) = Pl.replace name_repl s.
Proof.
  rewrite (replace_name_repl s).
  destruct (String.eqb s "foldhash-fast") eqn:E1; [reflexivity|].
  destruct (String.eqb s "foldhash-quality") eqn:E2; [reflexivity|].
  rewrite replace_name_repl. now rewrite E1, E2.
Qed.

Lemma has_entry_in (names : list string) (s : string) :
  has_entry (Pl.order_df names) s = true -> In s names.
Proof.
  unfold has_entry, Pl.order_df. intro H. apply existsb_exists in H.
  destruct H as [[x n] [Hin He]]. apply in_combine_l in Hin.
  simpl in He. apply String.eqb_eq in He. now subst.
Qed.

Lemma replace_registered (s : string) :
  In s hash_order -> Pl.replace name_repl s = s.
Proof.
  intro H. simpl in H.
  repeat (destruct H as [<-|H]; [reflexivity|]). destruct H.
Qed.

End Normalize.

(** X7.  The renaming is idempotent and leaves a hash name that has an
    entry in the hash ordering table unchanged; it commutes with the
    rescaling, which depends on [bench] only. *)
Theorem rename_is_a_normal_form (r : Aggregator.record) :
  Aggregator.rename (Aggregator.rename r) = Aggregator.rename r /\
  (Aggregator.has_entry Aggregator.hash_order_df (Aggregator.hash r) = true ->
   Aggregator.rename r = r) /\
  Aggregator.rescale (Aggregator.rename r)
  = Aggregator.rename (Aggregator.rescale r).
Proof.
  destruct r as [b d h v]. unfold Aggregator.rename, Aggregator.rescale.
  cbn [Aggregator.hash Aggregator.bench Aggregator.distr Aggregator.ns].
  split; [|split].
  - now rewrite replace_idempotent.
  - intro H. apply has_entry_in in H.
    now rewrite (replace_registered _ H).
  - reflexivity.
Qed.

Lemma rename_is_a_normal_form_witness :
  Aggregator.rename Scenario.new_label = Scenario.new_label.
Proof.
  apply (proj1 (proj2 (rename_is_a_normal_form Scenario.new_label))).
  reflexivity.
Defined.

Section Joins.

Import Aggregator.

Lemma nodupb_NoDup (l : list string) : nodupb l = true -> NoDup l.
Proof.
  induction l as [|x l IH]; simpl; intro H; constructor.
  - apply andb_true_iff in H. destruct H as [H _].
    apply negb_true_iff in H. intro Hin.
    assert (E : existsb (String.eqb x) l = true).
    { apply existsb_exists. exists x. split; [exact Hin|].
      apply String.eqb_refl. }
    congruence.
  - apply IH. apply andb_true_iff in H. tauto.
Qed.

Lemma distr_order_NoDup : NoDup distr_order.
Proof. apply nodupb_NoDup. reflexivity. Qed.

Lemma bench_order_NoDup : NoDup bench_order.
Proof. apply nodupb_NoDup. reflexivity. Qed.

Lemma hash_order_NoDup : NoDup hash_order.
Proof. apply nodupb_NoDup. reflexivity. Qed.

(** An entry of an ordering table pairs a name with its place. *)
Lemma combine_seq_position (names : list string) (k : nat) (s : string)
    (n : nat) :
  NoDup names ->
  In (s, n) (combine names (seq k (List.length names))) ->
  n = (k + position names s)%nat.
Proof.
  revert k. induction names as [|x l IH]; intros k Hnd Hin; [destruct Hin|].
  simpl in Hin. inversion Hnd as [|? ? Hx Hl]; subst.
  destruct Hin as [E|Hin].
  - injection E as -> ->. simpl. rewrite String.eqb_refl. lia.
  - pose proof (in_combine_l _ _ _ _ Hin) as Hs.
    assert (Hne : String.eqb x s = false).
    { apply String.eqb_neq. intros ->. contradiction. }
    simpl. rewrite Hne. rewrite (IH (S k) Hl Hin). lia.
Qed.

Lemma order_df_position (names : list string) (s : string) (n : nat) :
  NoDup names -> In (s, n) (Pl.order_df names) -> n = position names s.
Proof.
  intros Hnd Hin. apply (combine_seq_position names 0 s n Hnd Hin).
Qed.

(** A name has at most one entry in a table of distinct names. *)
Lemma combine_seq_single (l : list string) (k : nat) (s : string) :
  NoDup l ->
  existsb (fun e => String.eqb (fst e) s) (combine l (seq k (List.length l)))
  = true ->
  exists n,
    filter (fun e : string * nat => String.eqb (fst e) s)
           (combine l (seq k (List.length l))) = [(s, n)].
Proof.
  revert k. induction l as [|x l IH]; intros k Hnd He; [discriminate He|].
  simpl in *. inversion Hnd as [|? ? Hx Hl]; subst.
  destruct (String.eqb x s) eqn:E.
  - apply String.eqb_eq in E. subst x. exists k. f_equal.
    apply filter_none. intros [y n] Hin. simpl.
    apply in_combine_l in Hin. apply String.eqb_neq. intros ->.
    contradiction.
  - simpl in He. now apply IH.
Qed.

Lemma entries_single (names : list string) (s : string) :
  NoDup names ->
  has_entry (Pl.order_df names) s = true ->
  filter (fun e => String.eqb (fst e) s) (Pl.order_df names)
  = [(s, position names s)].
Proof.
  intros Hnd He.
  destruct (combine_seq_single names 0 s Hnd He) as [n Hn].
  unfold Pl.order_df. rewrite Hn. f_equal. f_equal.
  apply (order_df_position names s n Hnd).
  assert (H : In (s, n) (filter (fun e : string * nat =>
                                   String.eqb (fst e) s)
                                (Pl.order_df names)))
    by (unfold Pl.order_df; rewrite Hn; now left).
  now apply filter_In in H.
Qed.

Lemma entries_none (t : list (string * nat)) (s : string) :
  has_entry t s = false ->
  filter (fun e => String.eqb (fst e) s) t = [].
Proof.
  intro H. apply filter_none. intros e He.
  destruct (String.eqb (fst e) s) eqn:E; [|reflexivity].
  assert (has_entry t s = true)
    by (apply existsb_exists; now exists e).
  congruence.
Qed.

(** The inner join against a table of distinct names keeps a row with an
    entry once, with the place of its name, and drops a row without. *)
Lemma join_one {A : Type} (key : A -> string) (names : list string) (a : A) :
  NoDup names ->
  Pl.join key (Pl.order_df names) [a]
  = if has_entry (Pl.order_df names) (key a)
    then [(a, position names (key a))] else [].
Proof.
  intro Hnd. unfold Pl.join. simpl. rewrite app_nil_r.
  destruct (has_entry _ _) eqn:E.
  - now rewrite (entries_single _ _ Hnd E).
  - now rewrite (entries_none _ _ E).
Qed.

(** The three joins on one normalized record. *)
Lemma joins_one (r : record) :
  joins [normalize r]
  = if known r
    then [(normalize r,
           position distr_order (distr r),
           position bench_order (bench r),
           position hash_order (hash (rename r)))]
    else [].
Proof.
  unfold joins, known, distr_order_df, bench_order_df, hash_order_df.
  rewrite (join_one distr distr_order _ distr_order_NoDup).
  change (distr (normalize r)) with (distr r).
  destruct (has_entry (Pl.order_df distr_order) (distr r)); [|reflexivity].
  rewrite (join_one (fun j : record * nat => bench (fst j)) bench_order _
             bench_order_NoDup).
  cbn [fst]. change (bench (normalize r)) with (bench r).
  destruct (has_entry (Pl.order_df bench_order) (bench r)); [|reflexivity].
  rewrite (join_one (fun j : record * nat * nat => hash (fst (fst j)))
             hash_order _ hash_order_NoDup).
  cbn [fst]. change (hash (normalize r)) with (hash (rename r)).
  destruct (has_entry (Pl.order_df hash_order) (hash (rename r)));
    reflexivity.
Qed.

Lemma joins_cons (x : record) (l : list record) :
  joins (x :: l) = (joins [x] ++ joins l)%list.
Proof. apply (joins_app [x] l). Qed.

(** The joins keep exactly the known records, each once and in order. *)
Lemma joins_records (l : list record) :
  map the_record (joins (map normalize l))
  = map normalize (filter known l).
Proof.
  induction l as [|r l IH]; [reflexivity|].
  simpl map at 2. rewrite joins_cons, map_app, IH, joins_one. simpl filter.
  destruct (known r); reflexivity.
Qed.

Lemma df_normalize (input : list record) :
  df input
  = map the_record (Pl.sort_by sort_ltb (joins (map normalize input))).
Proof. unfold df. now rewrite map_map. Qed.

(** The index columns of a joined row are the places of its labels. *)
Lemma joins_positions (l : list record) (j : joined) :
  In j (joins (map normalize l)) ->
  distr_order_idx j = position distr_order (distr (the_record j)) /\
  bench_order_idx j = position bench_order (bench (the_record j)) /\
  hash_order_idx j = position hash_order (hash (the_record j)).
Proof.
  induction l as [|r l IH]; [intros []|].
  simpl map. rewrite joins_cons, joins_one. intro H.
  apply in_app_or in H. destruct H as [H|H]; [|now apply IH].
  destruct (known r); [|destruct H]. destruct H as [<-|[]].
  repeat split.
Qed.

End Joins.

Section SortedFrame.

Import Aggregator.

Lemma insert_by_Sorted {A : Type} (ltb : A -> A -> bool) (x : A)
    (l : list A) :
  (forall a b, ltb a b = true -> ltb b a = false) ->
  Sorted (not_before ltb) l -> Sorted (not_before ltb) (Pl.insert_by ltb x l).
Proof.
  intros Hasym. induction 1 as [|y l Hs IH Hhd]; simpl.
  - repeat constructor.
  - destruct (ltb y x) eqn:E.
    + constructor; [exact IH|].
      destruct l as [|z l]; simpl.
      * constructor. unfold not_before. now apply Hasym.
      * inversion Hhd; subst.
        destruct (ltb z x); constructor; trivial.
        unfold not_before. now apply Hasym.
    + repeat constructor; trivial.
Qed.

Lemma sort_by_Sorted {A : Type} (ltb : A -> A -> bool) (l : list A) :
  (forall a b, ltb a b = true -> ltb b a = false) ->
  Sorted (not_before ltb) (Pl.sort_by ltb l).
Proof.
  intro Hasym. induction l as [|x l IH]; simpl; [constructor|].
  now apply insert_by_Sorted.
Qed.

Lemma sort_ltb_asym (a b : joined) :
  sort_ltb a b = true -> sort_ltb b a = false.
Proof.
  unfold sort_ltb.
  rewrite (Nat.compare_antisym (distr_order_idx a) (distr_order_idx b)).
  rewrite (String.compare_antisym (distr (the_record b))
                                  (distr (the_record a))).
  rewrite (Nat.compare_antisym (bench_order_idx a) (bench_order_idx b)).
  destruct (distr_order_idx a ?= distr_order_idx b)%nat; simpl;
    try discriminate; try reflexivity.
  destruct (distr (the_record a) ?= distr (the_record b))%string; simpl;
    try discriminate; try reflexivity.
  destruct (bench_order_idx a ?= bench_order_idx b)%nat; simpl;
    try discriminate; try reflexivity.
  intro H. apply Nat.ltb_lt in H. apply Nat.ltb_ge. lia.
Qed.

Lemma sort_ltb_canonical (l : list record) (a b : joined) :
  In a (joins (map normalize l)) -> In b (joins (map normalize l)) ->
  sort_ltb a b = canonical_ltb (the_record a) (the_record b).
Proof.
  intros Ha Hb.
  destruct (joins_positions _ _ Ha) as [A1 [A2 A3]].
  destruct (joins_positions _ _ Hb) as [B1 [B2 B3]].
  unfold sort_ltb, canonical_ltb. now rewrite A1, A2, A3, B1, B2, B3.
Qed.

Lemma Sorted_map_in {A B : Type} (R : A -> A -> Prop) (R' : B -> B -> Prop)
    (f : A -> B) (l : list A) :
  (forall a b, In a l -> In b l -> R a b -> R' (f a) (f b)) ->
  Sorted R l -> Sorted R' (map f l).
Proof.
  intros H Hs. induction Hs as [|x l Hs IH Hhd]; simpl; constructor.
  - apply IH. intros a b Ha Hb. apply H; now right.
  - destruct Hhd as [|y l' Hxy]; simpl; constructor.
    apply H; [now left | right; now left | exact Hxy].
Qed.

Lemma df_nil_of_unknown (input : list record) :
  Forall (fun r => known r = false) input -> df input = [].
Proof.
  intro H. rewrite df_normalize.
  assert (E : joins (map normalize input) = []).
  { induction H as [|r l Hr _ IH]; [reflexivity|].
    simpl map. rewrite joins_cons, joins_one, Hr, IH. reflexivity. }
  now rewrite E.
Qed.

End SortedFrame.

(** X8.  The frame holds exactly the input records whose three labels have
    entries, each once, renamed and rescaled: the joins neither duplicate
    nor drop a known record. *)
Theorem frame_is_known_records (input : list Aggregator.record) :
  Permutation (Aggregator.df input)
              (map normalize (filter Aggregator.known input)) /\
  List.length (Aggregator.df input)
  = List.length (filter Aggregator.known input).
Proof.
  assert (P : Permutation (Aggregator.df input)
                (map normalize (filter Aggregator.known input))).
  { rewrite df_normalize, <- joins_records.
    apply Permutation_map. symmetry. apply sort_by_perm. }
  split; [exact P|].
  rewrite (Permutation_length P). apply length_map.
Qed.

(** X9.  The frame is in the canonical order of the report: no row comes
    before its predecessor in the lexicographic order on the place of
    [distr] in its ordering list, [distr], the place of [bench] and the
    place of [hash]. *)
Theorem frame_is_in_canonical_order (input : list Aggregator.record) :
  Sorted (not_before canonical_ltb) (Aggregator.df input).
Proof.
  rewrite df_normalize.
  apply (Sorted_map_in (not_before Aggregator.sort_ltb)).
  - intros a b Ha Hb Hab.
    apply (Permutation_in _ (Permutation_sym (sort_by_perm _ _))) in Ha.
    apply (Permutation_in _ (Permutation_sym (sort_by_perm _ _))) in Hb.
    unfold not_before in *.
    now rewrite <- (sort_ltb_canonical input b a Hb Ha).
  - apply sort_by_Sorted. apply sort_ltb_asym.
Qed.

(** X10.  An input without a known record gives a frame without rows and
    the run fails.  When it holds records, the pivot table, without rows
    and columns, is printed and the transposition of the empty summary
    raises [NoDataError]; the empty input fails earlier, with
    [InvalidOperationError], and prints nothing. *)
Theorem run_without_known_record_fails {F : Type} (lme : list Q -> F)
    (input : list Aggregator.record) :
  Forall (fun r => Aggregator.known r = false) input ->
  Aggregator.df input = [] /\
  (input <> [] ->
   Aggregator.main lme input
   = ([Aggregator.Table empty_table], Some NoDataError)) /\
  (input = [] ->
   Aggregator.main lme input = ([], Some InvalidOperationError)).
Proof.
  intro H. pose proof (df_nil_of_unknown _ H) as E.
  split; [exact E|]. split.
  - intro Hne. rewrite (main_nonempty lme _ Hne), E. reflexivity.
  - intros ->. reflexivity.
Qed.

Lemma run_without_known_record_fails_witness :
  Aggregator.main Scenario.column_itself
    [Scenario.unregistered; Scenario.unregistered]
  = ([Aggregator.Table empty_table], Some NoDataError).
Proof.
  apply (run_without_known_record_fails Scenario.column_itself
           [Scenario.unregistered; Scenario.unregistered]).
  - repeat constructor.
  - discriminate.
Defined.

Section PivotTable.

Import Aggregator.

Lemma comprehension_ok_map {A B : Type} (f : A -> result B) (g : A -> B)
    (l : list A) :
  (forall x, In x l -> f x = Ok (g x)) ->
  comprehension f l = Ok (map g l).
Proof.
  induction l as [|x l IH]; intro H; simpl; [reflexivity|].
  rewrite (H x (or_introl eq_refl)). simpl.
  rewrite IH; [reflexivity|]. intros y Hy. apply H. now right.
Qed.

Lemma cell_of_unique (d : list record) (i : index) (h : string) :
  (List.length (filter (at_key i h) d) <= 1)%nat ->
  cell d i h = Ok (cell_value d i h).
Proof.
  unfold cell, cell_value.
  destruct (filter (at_key i h) d) as [|r [|r' l]]; simpl; trivial. lia.
Qed.

(** The table a pivot of a frame with one row per cell returns. *)
Lemma pivot_of_unique (d : list record) :
  unique_keys d ->
  pivot d
  = Ok {| columns := Pl.unique String.eqb (map hash d);
          rows := map (fun i =>
                         (i, map (cell_value d i)
                                 (Pl.unique String.eqb (map hash d))))
                      (Pl.unique index_eqb (map index_of d)) |}.
Proof.
  intro Hu. unfold pivot.
  rewrite (comprehension_ok_map _
             (fun i => (i, map (cell_value d i)
                               (Pl.unique String.eqb (map hash d))))).
  - reflexivity.
  - intros i _. rewrite (comprehension_ok_map _ (cell_value d i)).
    + reflexivity.
    + intros h _. apply cell_of_unique, Hu.
Qed.

Lemma pivot_ok_table (d : list record) (t : pivot_table) :
  pivot d = Ok t ->
  t = {| columns := Pl.unique String.eqb (map hash d);
         rows := map (fun i =>
                        (i, map (cell_value d i)
                                (Pl.unique String.eqb (map hash d))))
                     (Pl.unique index_eqb (map index_of d)) |}.
Proof.
  intro H. pose proof (pivot_ok_unique_keys _ _ H) as Hu.
  rewrite (pivot_of_unique _ Hu) in H. now injection H.
Qed.

Lemma unique_NoDup {A : Type} (eqb : A -> A -> bool) (l : list A) :
  (forall a b, eqb a b = true <-> a = b) -> NoDup (Pl.unique eqb l).
Proof.
  intro Heq. induction l as [|x l IH]; simpl; constructor.
  - intro H. apply filter_In in H. destruct H as [_ H].
    assert (E : eqb x x = true) by now apply Heq.
    rewrite E in H. discriminate H.
  - now apply NoDup_filter.
Qed.

Lemma find_row {B : Type} (g : index -> B) (idxs : list index) (i : index) :
  In i idxs ->
  find (fun row : index * B => index_eqb (fst row) i)
       (map (fun j => (j, g j)) idxs) = Some (i, g i).
Proof.
  induction idxs as [|j idxs IH]; intro H; [destruct H|]. simpl.
  destruct (index_eqb j i) eqn:E.
  - apply index_eqb_eq in E. now subst.
  - destruct H as [->|H]; [|now apply IH].
    assert (index_eqb i i = true) by now apply index_eqb_eq. congruence.
Qed.

Lemma find_row_inv {B : Type} (g : index -> B) (idxs : list index)
    (i : index) (row : index * B) :
  find (fun row : index * B => index_eqb (fst row) i)
       (map (fun j => (j, g j)) idxs) = Some row ->
  In i idxs /\ row = (i, g i).
Proof.
  intro H. apply find_some in H. destruct H as [Hin E].
  apply in_map_iff in Hin. destruct Hin as [j [<- Hj]]. simpl in E.
  apply index_eqb_eq in E. subst j. now split.
Qed.

Lemma nth_position {B : Type} (g : string -> B) (cols : list string)
    (h : string) :
  In h cols -> nth_error (map g cols) (position cols h) = Some (g h).
Proof.
  induction cols as [|c cols IH]; intro H; [destruct H|]. simpl.
  destruct (String.eqb c h) eqn:E.
  - apply String.eqb_eq in E. now subst.
  - simpl. destruct H as [->|H]; [|now apply IH].
    rewrite String.eqb_refl in E. discriminate E.
Qed.

Lemma nth_position_inv {B : Type} (g : string -> B) (cols : list string)
    (h : string) (b : B) :
  nth_error (map g cols) (position cols h) = Some b ->
  In h cols /\ b = g h.
Proof.
  induction cols as [|c cols IH]; simpl; [discriminate|].
  destruct (String.eqb c h) eqn:E; simpl.
  - apply String.eqb_eq in E. subst c. intro H. injection H as <-.
    split; [now left | reflexivity].
  - intro H. destruct (IH H) as [Hin ->]. split; [now right | reflexivity].
Qed.

Lemma cell_value_row (d : list record) (r : record) :
  unique_keys d -> In r d ->
  cell_value d (index_of r) (hash r) = Some (ns r).
Proof.
  intros Hu Hin. unfold cell_value.
  assert (Hk : at_key (index_of r) (hash r) r = true).
  { unfold at_key. apply andb_true_iff. split;
      [now apply index_eqb_eq | now apply String.eqb_eq]. }
  assert (Hf : In r (filter (at_key (index_of r) (hash r)) d))
    by now apply filter_In.
  specialize (Hu (index_of r) (hash r)).
  destruct (filter _ d) as [|x [|y l]]; simpl in *; [tauto | | lia].
  destruct Hf as [->|[]]. reflexivity.
Qed.

Lemma cell_value_some (d : list record) (i : index) (h : string) (v : Q) :
  cell_value d i h = Some v ->
  exists r, In r d /\ index_of r = i /\ hash r = h /\ ns r = v.
Proof.
  unfold cell_value. destruct (filter (at_key i h) d) as [|r [|r' l]] eqn:E;
    try discriminate.
  intro H. injection H as <-.
  assert (Hf : In r (filter (at_key i h) d)) by (rewrite E; now left).
  apply filter_In in Hf. destruct Hf as [Hin Hk].
  unfold at_key in Hk. apply andb_true_iff in Hk. destruct Hk as [Hi Hh].
  exists r. repeat split; trivial.
  - now apply index_eqb_eq.
  - now apply String.eqb_eq.
Qed.

Lemma pivot_raise_only (d : list record) (e : exn) :
  pivot d = Raise e -> e = ComputeError.
Proof.
  unfold pivot. destruct (comprehension _ _) as [rs|e'] eqn:E; simpl;
    [discriminate|].
  intro H. injection H as <-.
  eapply comprehension_raise_only; [|exact E].
  intros i e''. cbv beta.
  destruct (comprehension (cell d i)
              (Pl.unique String.eqb (map hash d))) as [cs|e3] eqn:E3;
    simpl; [discriminate|].
  intro H. injection H as <-.
  eapply comprehension_raise_only; [|exact E3].
  intros x e4. apply cell_raise_only.
Qed.

End PivotTable.

(** X11.  The pivot succeeds exactly on the frames with at most one row
    per [(distr, bench, hash)] key.  The run prints both frames exactly
    when the frame has rows and at most one per key; otherwise it fails in
    one of three ways: on an input without records, on a duplicate key, or
    on a frame without rows. *)
Theorem pivot_succeeds_iff_unique_keys {F : Type} (lme : list Q -> F) :
  (forall d, (exists t, Aggregator.pivot d = Ok t)
             <-> Aggregator.unique_keys d) /\
  (forall input,
     (exists t s, Aggregator.main lme input
                  = ([Aggregator.Table t; Aggregator.Summary s], None))
     <-> (Aggregator.unique_keys (Aggregator.df input)
          /\ Aggregator.df input <> [])) /\
  (forall input out e,
     Aggregator.main lme input = (out, Some e) ->
     (input = [] /\ out = [] /\ e = InvalidOperationError) \/
     (~ Aggregator.unique_keys (Aggregator.df input)
      /\ out = [] /\ e = ComputeError) \/
     (input <> [] /\ Aggregator.df input = []
      /\ out = [Aggregator.Table empty_table] /\ e = NoDataError)).
Proof.
  assert (P : forall d, (exists t, Aggregator.pivot d = Ok t)
                        <-> Aggregator.unique_keys d).
  { intro d. split.
    - intros [t Ht]. now apply (pivot_ok_unique_keys d t).
    - intro Hu. eexists. now apply pivot_of_unique. }
  split; [exact P|]. split.
  - intro input. split.
    + intros [t [s H]]. apply main_ok in H. destruct H as [Hp [_ Hd]].
      split; [now apply (pivot_ok_unique_keys _ t) | exact Hd].
    + intros [Hu Hd]. apply P in Hu. destruct Hu as [t Ht].
      exists t. eexists. now apply main_of_pivot.
  - intros input out e H. destruct input as [|r l].
    + left. injection H as <- <-. repeat split.
    + right. rewrite main_nonempty in H by discriminate.
      unfold Aggregator.report in H.
      destruct (Aggregator.pivot (Aggregator.df (r :: l))) as [t|e'] eqn:E.
      * right.
        destruct (Aggregator.summary lme (Aggregator.df (r :: l)))
          as [|x s] eqn:Es; [|discriminate H].
        apply summary_nil in Es. injection H as <- <-.
        split; [discriminate|]. split; [exact Es|].
        rewrite Es in E. injection E as <-. now split.
      * left. injection H as <- <-.
        pose proof (pivot_raise_only _ _ E) as ->.
        split; [|now split]. intro Hu. apply P in Hu.
        destruct Hu as [t Ht]. rewrite Ht in E. discriminate E.
Qed.

(** X12.  The pivot is lossless.  Every row of the frame is found in the
    table, in the row of its [(distr, bench)] and the column of its hash,
    with its [ns]; every value of the table is the [ns] of a row of the
    frame with that index and hash; and a null cell stands for a
    combination without a row. *)
Theorem pivot_is_lossless (d : list Aggregator.record)
    (t : Aggregator.pivot_table) :
  Aggregator.pivot d = Ok t ->
  (forall r, In r d ->
     get t (Aggregator.index_of r) (Aggregator.hash r)
     = Some (Some (Aggregator.ns r))) /\
  (forall i h v, get t i h = Some (Some v) ->
     exists r, In r d /\ Aggregator.index_of r = i /\
               Aggregator.hash r = h /\ Aggregator.ns r = v) /\
  (forall i h, get t i h = Some None ->
     forall r, In r d -> Aggregator.index_of r = i ->
               Aggregator.hash r <> h).
Proof.
  intro Hp. pose proof (pivot_ok_unique_keys _ _ Hp) as Hu.
  rewrite (pivot_ok_table _ _ Hp). unfold get. simpl.
  split; [|split].
  - intros r Hin.
    rewrite (find_row (fun i => map (cell_value d i) _)).
    + simpl. rewrite nth_position.
      * now rewrite cell_value_row.
      * apply unique_in; [apply String.eqb_eq | now apply in_map].
    + apply unique_in; [apply index_eqb_eq | now apply in_map].
  - intros i h v H.
    destruct (find _ _) as [row|] eqn:F; [|discriminate].
    apply find_row_inv in F. destruct F as [_ ->]. simpl in H.
    apply nth_position_inv in H. destruct H as [_ H].
    symmetry in H. now apply cell_value_some.
  - intros i h H r Hin Hi Hh.
    destruct (find _ _) as [row|] eqn:F; [|discriminate].
    apply find_row_inv in F. destruct F as [_ ->]. simpl in H.
    apply nth_position_inv in H. destruct H as [_ H].
    subst i h. rewrite (cell_value_row _ _ Hu Hin) in H. discriminate H.
Qed.

Lemma pivot_is_lossless_witness :
  exists t, Aggregator.pivot (Aggregator.df Scenario.two_groups) = Ok t /\
    get t ("u32", "hashonly") "foldhash-f" = Some (Some 5).
Proof.
  destruct (Aggregator.pivot (Aggregator.df Scenario.two_groups)) as [t|e]
    eqn:E; [|vm_compute in E; discriminate E].
  exists t. split; [reflexivity|].
  apply (proj1 (pivot_is_lossless _ t E)
               (Scenario.rec "hashonly" "u32" "foldhash-f" 5)).
  vm_compute. auto.
Defined.

(** X13.  The shape of the report.  The columns of the table are the
    distinct hashes of the frame in order of first appearance, its rows
    the distinct [(distr, bench)] pairs in order of first appearance, each
    with one cell per column; the summary has one row per column, in the
    same order. *)
Theorem report_shape {F : Type} (lme : list Q -> F)
    (input : list Aggregator.record)
    (t : Aggregator.pivot_table) (s : list (Aggregator.summary_row F)) :
  Aggregator.main lme input
  = ([Aggregator.Table t; Aggregator.Summary s], None) ->
  let d := Aggregator.df input in
  Aggregator.columns t = Pl.unique String.eqb (map Aggregator.hash d) /\
  NoDup (Aggregator.columns t) /\
  map fst (Aggregator.rows t)
  = Pl.unique Aggregator.index_eqb (map Aggregator.index_of d) /\
  NoDup (map fst (Aggregator.rows t)) /\
  Forall (fun row => List.length (snd row)
                     = List.length (Aggregator.columns t))
         (Aggregator.rows t) /\
  map Aggregator.s_hash s = Aggregator.columns t.
Proof.
  intros Hm d. apply main_ok in Hm. destruct Hm as [Hp [-> _]].
  fold d in Hp |- *.
  rewrite (pivot_ok_table _ _ Hp). simpl.
  assert (E : map fst
                (map (fun i => (i, map (cell_value d i)
                      (Pl.unique String.eqb (map Aggregator.hash d))))
                     (Pl.unique Aggregator.index_eqb
                                (map Aggregator.index_of d)))
              = Pl.unique Aggregator.index_eqb (map Aggregator.index_of d)).
  { rewrite map_map. simpl. apply map_id. }
  split; [reflexivity|].
  split; [apply unique_NoDup, String.eqb_eq|].
  split; [exact E|].
  split; [rewrite E; apply unique_NoDup, index_eqb_eq|].
  split.
  - apply Forall_forall. intros row Hrow. apply in_map_iff in Hrow.
    destruct Hrow as [i [<- _]]. simpl. apply length_map.
  - unfold Aggregator.summary. rewrite map_map. simpl. apply map_id.
Qed.

Lemma report_shape_witness :
  exists t s,
    Aggregator.main Scenario.column_itself Scenario.two_groups
    = ([Aggregator.Table t; Aggregator.Summary s], None) /\
    Aggregator.columns t = ["foldhash-f"; "ahash"] /\
    map Aggregator.s_hash s = ["foldhash-f"; "ahash"].
Proof.
  assert (Hm : exists t,
            Aggregator.main Scenario.column_itself Scenario.two_groups
            = ([Aggregator.Table t;
                Aggregator.Summary
                  (Aggregator.summary Scenario.column_itself
                     (Aggregator.df Scenario.two_groups))], None)).
  { eexists. apply main_of_pivot; [vm_compute; discriminate|].
    vm_compute. reflexivity. }
  destruct Hm as [t Hm].
  exists t, (Aggregator.summary Scenario.column_itself
               (Aggregator.df Scenario.two_groups)).
  split; [exact Hm|].
  destruct (report_shape _ _ _ _ Hm) as [Hc [_ [_ [_ [_ Hs]]]]].
  rewrite Hs, Hc. split; vm_compute; reflexivity.
Defined.

Section RankOrder.

Lemma rank_by_counts (col col' : list Q) (v v' : Q) :
  count_lt v col = count_lt v' col' ->
  count_eq v col = count_eq v' col' ->
  Pl.rank col v = Pl.rank col' v'.
Proof.
  intros Hl He. unfold Pl.rank.
  rewrite !(ordinals_Sorted _ _ (sorted_Sorted _)).
  rewrite <- (count_eq_perm v _ _ (sorted_perm col)).
  rewrite <- (count_lt_perm v _ _ (sorted_perm col)).
  rewrite <- (count_eq_perm v' _ _ (sorted_perm col')).
  rewrite <- (count_lt_perm v' _ _ (sorted_perm col')).
  now rewrite Hl, He.
Qed.

Lemma Qeq_bool_Qeq_r (x v w : Q) : v == w -> Qeq_bool x v = Qeq_bool x w.
Proof.
  intro H. destruct (Qeq_bool x v) eqn:E1, (Qeq_bool x w) eqn:E2; trivial.
  - apply Qeq_bool_iff in E1. apply Qeq_bool_neq in E2.
    exfalso. apply E2. now rewrite E1.
  - apply Qeq_bool_iff in E2. apply Qeq_bool_neq in E1.
    exfalso. apply E1. now rewrite E2.
Qed.

Lemma lt_Qeq_r (x v w : Q) : v == w -> lt x v = lt x w.
Proof. intro H. unfold lt. now rewrite H. Qed.

Lemma counts_Qeq (col : list Q) (v w : Q) :
  v == w ->
  count_lt v col = count_lt w col /\ count_eq v col = count_eq w col.
Proof.
  intro H. induction col as [|x col [IH1 IH2]]; [now split|].
  rewrite !count_lt_cons, !count_eq_cons, IH1, IH2.
  now rewrite (lt_Qeq_r x _ _ H), (Qeq_bool_Qeq_r x _ _ H).
Qed.

Lemma Qeq_bool_false (x y : Q) : ~ x == y -> Qeq_bool x y = false.
Proof.
  intro H. destruct (Qeq_bool x y) eqn:E; [|reflexivity].
  apply Qeq_bool_iff in E. contradiction.
Qed.

Lemma count_le_split (v : Q) (l : list Q) :
  count_le v l = (count_lt v l + count_eq v l)%nat.
Proof.
  induction l as [|x l IH]; [reflexivity|].
  rewrite count_le_cons, count_lt_cons, count_eq_cons, IH.
  destruct (Q_dec x v) as [[H|H]|H].
  - assert (E1 : lt x v = true) by now apply lt_spec.
    assert (E2 : Qle_bool x v = true)
      by (apply Qle_bool_iff; now apply Qlt_le_weak).
    assert (E3 : Qeq_bool x v = false).
    { apply Qeq_bool_false. intro E. rewrite E in H.
      apply (Qlt_irrefl _ H). }
    rewrite E1, E2, E3. lia.
  - assert (E1 : lt x v = false)
      by (apply lt_false; now apply Qlt_le_weak).
    assert (E2 : Qle_bool x v = false).
    { destruct (Qle_bool x v) eqn:E; [|reflexivity].
      apply Qle_bool_iff in E. exfalso. apply (Qlt_not_le _ _ H E). }
    assert (E3 : Qeq_bool x v = false).
    { apply Qeq_bool_false. intro E. rewrite E in H.
      apply (Qlt_irrefl _ H). }
    rewrite E1, E2, E3. lia.
  - assert (E1 : lt x v = false)
      by (apply lt_false; rewrite H; apply Qle_refl).
    assert (E2 : Qle_bool x v = true)
      by (apply Qle_bool_iff; rewrite H; apply Qle_refl).
    assert (E3 : Qeq_bool x v = true) by now apply Qeq_bool_iff.
    rewrite E1, E2, E3. lia.
Qed.

Lemma N2Q_add (n m : nat) : N2Q (n + m) == N2Q n + N2Q m.
Proof. unfold N2Q. now rewrite Nat2Z.inj_add, inject_Z_plus. Qed.

End RankOrder.

(** X14.  The rank follows the order of the values.  Numerically equal
    values have the same rank; of two values of the column the smaller has
    the strictly smaller rank; and a value without a tie has the whole
    rank one plus the number of smaller entries. *)
Theorem rank_follows_order (col : list Q) (v w : Q) :
  (v == w -> Pl.rank col v = Pl.rank col w) /\
  (v < w -> (1 <= count_eq v col)%nat -> (1 <= count_eq w col)%nat ->
   Pl.rank col v < Pl.rank col w) /\
  (count_eq v col = 1%nat -> Pl.rank col v == N2Q (S (count_lt v col))).
Proof.
  split; [|split].
  - intro H. destruct (counts_Qeq col v w H) as [H1 H2].
    now apply rank_by_counts.
  - intros Hvw Hv Hw.
    rewrite (rank_closed_form _ _ Hv), (rank_closed_form _ _ Hw).
    pose proof (count_le_lt_mono v w col Hvw) as Hm.
    rewrite count_le_split in Hm. apply N2Q_le in Hm.
    rewrite N2Q_add in Hm.
    apply N2Q_le in Hv. apply N2Q_le in Hw.
    change (N2Q 1) with 1 in Hv, Hw.
    setoid_replace ((N2Q (count_eq v col) + 1) / 2)
      with ((N2Q (count_eq v col) + 1) * (1 # 2)) by field.
    setoid_replace ((N2Q (count_eq w col) + 1) / 2)
      with ((N2Q (count_eq w col) + 1) * (1 # 2)) by field.
    lra.
  - intro H1. rewrite rank_closed_form by lia. rewrite H1.
    rewrite (N2Q_S (count_lt v col)). change (N2Q 1) with 1. field.
Qed.

Lemma rank_follows_order_witness :
  Pl.rank [5; 3; 5; 9] 3 < Pl.rank [5; 3; 5; 9] 5.
Proof.
  apply (proj1 (proj2 (rank_follows_order [5; 3; 5; 9] 3 5))).
  - reflexivity.
  - vm_compute. lia.
  - vm_compute. lia.
Defined.

(** The ranks of the column 5, 3, 5, 9: the two entries 5 share the mean
    of the ranks 2 and 3. *)
Example rank_with_a_tie :
  map (Pl.rank [5; 3; 5; 9]) [5; 3; 5; 9] = [5 # 2; 1; 5 # 2; 4].
Proof. vm_compute. reflexivity. Qed.

Section OrderIndependence.

Import Aggregator.

Lemma position_lt (names : list string) (s : string) :
  In s names -> (position names s < List.length names)%nat.
Proof.
  induction names as [|x l IH]; intro H; [destruct H|]. simpl.
  destruct (String.eqb x s) eqn:E; [lia|].
  destruct H as [->|H]; [rewrite String.eqb_refl in E; discriminate E|].
  specialize (IH H). lia.
Qed.

Lemma position_inj (names : list string) (s s' : string) :
  In s names -> In s' names ->
  position names s = position names s' -> s = s'.
Proof.
  induction names as [|x l IH]; intros H H' E; [destruct H|]. simpl in E.
  destruct (String.eqb x s) eqn:E1, (String.eqb x s') eqn:E2;
    try discriminate E.
  - apply String.eqb_eq in E1, E2. congruence.
  - destruct H as [->|H]; [rewrite String.eqb_refl in E1; discriminate E1|].
    destruct H' as [->|H'];
      [rewrite String.eqb_refl in E2; discriminate E2|].
    apply IH; trivial. lia.
Qed.

Lemma string_compare_refl (s : string) : String.compare s s = Eq.
Proof.
  pose proof (String.compare_antisym s s) as H.
  destruct (String.compare s s); trivial; discriminate H.
Qed.

(** The labels of a joined row are names of the ordering lists. *)
Lemma joins_labels (l : list record) (j : joined) :
  In j (joins (map normalize l)) ->
  In (distr (the_record j)) distr_order /\
  In (bench (the_record j)) bench_order /\
  In (hash (the_record j)) hash_order.
Proof.
  intro H. apply joins_in in H. destruct H as [_ [Hd [Hb Hh]]].
  repeat split; now apply has_entry_in.
Qed.

Lemma joined_eq (a b : joined) :
  the_record a = the_record b ->
  distr_order_idx a = distr_order_idx b ->
  bench_order_idx a = bench_order_idx b ->
  hash_order_idx a = hash_order_idx b ->
  a = b.
Proof.
  destruct a as [[[ra a1] a2] a3], b as [[[rb b1] b2] b3].
  unfold the_record, distr_order_idx, bench_order_idx, hash_order_idx.
  simpl. congruence.
Qed.

(** On the rows of the joins the order of the sort is the order of the
    codes. *)
Lemma sort_ltb_code (l : list record) (a b : joined) :
  In a (joins (map normalize l)) -> In b (joins (map normalize l)) ->
  sort_ltb a b = Nat.ltb (sort_code a) (sort_code b).
Proof.
  intros Ha Hb.
  destruct (joins_positions _ _ Ha) as [A1 [A2 A3]].
  destruct (joins_positions _ _ Hb) as [B1 [B2 B3]].
  destruct (joins_labels _ _ Ha) as [LA1 [LA2 LA3]].
  destruct (joins_labels _ _ Hb) as [LB1 [LB2 LB3]].
  pose proof (position_lt _ _ LA2) as PA2.
  pose proof (position_lt _ _ LA3) as PA3.
  pose proof (position_lt _ _ LB2) as PB2.
  pose proof (position_lt _ _ LB3) as PB3.
  rewrite <- A2 in PA2. rewrite <- A3 in PA3.
  rewrite <- B2 in PB2. rewrite <- B3 in PB3.
  unfold sort_ltb, sort_code.
  change (List.length bench_order) with 4%nat in *.
  change (List.length hash_order) with 5%nat in *.
  destruct (Nat.compare_spec (distr_order_idx a) (distr_order_idx b))
    as [Ed|Ld|Gd].
  - assert (Es : distr (the_record a) = distr (the_record b)).
    { apply (position_inj distr_order); trivial. congruence. }
    rewrite Es, string_compare_refl.
    destruct (Nat.compare_spec (bench_order_idx a) (bench_order_idx b))
      as [Eb|Lb|Gb].
    + rewrite Ed, Eb.
      destruct (hash_order_idx a <? hash_order_idx b)%nat eqn:E.
      * apply Nat.ltb_lt in E. symmetry. apply Nat.ltb_lt. lia.
      * apply Nat.ltb_ge in E. symmetry. apply Nat.ltb_ge. lia.
    + symmetry. apply Nat.ltb_lt. lia.
    + symmetry. apply Nat.ltb_ge. lia.
  - symmetry. apply Nat.ltb_lt. lia.
  - symmetry. apply Nat.ltb_ge. lia.
Qed.

(** Rows of the joins with one code have one key. *)
Lemma sort_code_key (l : list record) (a b : joined) :
  In a (joins (map normalize l)) -> In b (joins (map normalize l)) ->
  sort_code a = sort_code b ->
  distr_order_idx a = distr_order_idx b /\
  bench_order_idx a = bench_order_idx b /\
  hash_order_idx a = hash_order_idx b /\
  index_of (the_record a) = index_of (the_record b) /\
  hash (the_record a) = hash (the_record b).
Proof.
  intros Ha Hb E.
  destruct (joins_positions _ _ Ha) as [A1 [A2 A3]].
  destruct (joins_positions _ _ Hb) as [B1 [B2 B3]].
  destruct (joins_labels _ _ Ha) as [LA1 [LA2 LA3]].
  destruct (joins_labels _ _ Hb) as [LB1 [LB2 LB3]].
  pose proof (position_lt _ _ LA2) as PA2.
  pose proof (position_lt _ _ LA3) as PA3.
  pose proof (position_lt _ _ LB2) as PB2.
  pose proof (position_lt _ _ LB3) as PB3.
  rewrite <- A2 in PA2. rewrite <- A3 in PA3.
  rewrite <- B2 in PB2. rewrite <- B3 in PB3.
  unfold sort_code in E.
  change (List.length bench_order) with 4%nat in *.
  change (List.length hash_order) with 5%nat in *.
  assert (E1 : distr_order_idx a = distr_order_idx b) by lia.
  assert (E2 : bench_order_idx a = bench_order_idx b) by lia.
  assert (E3 : hash_order_idx a = hash_order_idx b) by lia.
  repeat split; trivial.
  - unfold index_of. f_equal.
    + apply (position_inj distr_order); trivial. congruence.
    + apply (position_inj bench_order); trivial. congruence.
  - apply (position_inj hash_order); trivial. congruence.
Qed.

(** Two ascending arrangements of the same rows are one list, when the
    rows have distinct codes. *)
Lemma ascending_unique {A : Type} (code : A -> nat) (l l' : list A) :
  Sorted (fun a b => code a <= code b)%nat l ->
  Sorted (fun a b => code a <= code b)%nat l' ->
  Permutation l l' ->
  (forall a b, In a l -> In b l -> code a = code b -> a = b) ->
  l = l'.
Proof.
  intros Hs Hs' HP Hinj.
  assert (T : Relations_1.Transitive (fun a b : A => (code a <= code b)%nat))
    by (intros a b c; apply Nat.le_trans).
  apply (Sorted_StronglySorted T) in Hs.
  apply (Sorted_StronglySorted T) in Hs'.
  clear T. revert l' Hs' HP.
  induction Hs as [|a l Hs IH Ha]; intros l' Hs' HP.
  - apply Permutation_nil in HP. now subst.
  - destruct Hs' as [|b l' Hs' Hb].
    + apply Permutation_sym, Permutation_nil in HP. discriminate HP.
    + assert (E : a = b).
      { assert (Hba : In b (a :: l))
          by (apply (Permutation_in _ (Permutation_sym HP)); now left).
        assert (Hab : In a (b :: l'))
          by (apply (Permutation_in _ HP); now left).
        apply Hinj; [now left | exact Hba |].
        apply Nat.le_antisymm.
        - destruct Hba as [->|Hba]; [lia|].
          rewrite Forall_forall in Ha. now apply Ha.
        - destruct Hab as [->|Hab]; [lia|].
          rewrite Forall_forall in Hb. now apply Hb. }
      subst b. f_equal. apply IH; trivial.
      * intros x y Hx Hy. apply Hinj; now right.
      * now apply Permutation_cons_inv in HP.
Qed.

Lemma sorted_joins_ascending (l : list record) :
  Sorted (fun a b => sort_code a <= sort_code b)%nat
         (Pl.sort_by sort_ltb (joins (map normalize l))).
Proof.
  rewrite <- (map_id (Pl.sort_by sort_ltb (joins (map normalize l)))).
  apply (Sorted_map_in (not_before sort_ltb)).
  - intros a b Ha Hb Hab.
    apply (Permutation_in _ (Permutation_sym (sort_by_perm _ _))) in Ha.
    apply (Permutation_in _ (Permutation_sym (sort_by_perm _ _))) in Hb.
    unfold not_before in Hab.
    rewrite (sort_ltb_code l b a Hb Ha) in Hab.
    apply Nat.ltb_ge in Hab. exact Hab.
  - apply sort_by_Sorted, sort_ltb_asym.
Qed.

Lemma joins_perm (l l' : list record) :
  Permutation l l' -> Permutation (joins l) (joins l').
Proof.
  intro H. unfold joins, Pl.join.
  now repeat apply Permutation_flat_map.
Qed.

(** With one row per cell the frame does not depend on the order of the
    input. *)
Lemma df_perm (input input' : list record) :
  Permutation input input' ->
  unique_keys (df input) ->
  df input' = df input.
Proof.
  intros HP Hu. rewrite !df_normalize. f_equal. symmetry.
  set (J := joins (map normalize input)).
  set (J' := joins (map normalize input')).
  assert (PJ : Permutation J J')
    by (apply joins_perm; now repeat apply Permutation_map).
  apply (ascending_unique sort_code).
  - apply sorted_joins_ascending.
  - apply sorted_joins_ascending.
  - rewrite <- (sort_by_perm sort_ltb J), <- (sort_by_perm sort_ltb J').
    exact PJ.
  - intros a b Ha Hb E.
    assert (Da : In (the_record a) (df input))
      by (rewrite df_normalize; now apply in_map).
    assert (Db : In (the_record b) (df input))
      by (rewrite df_normalize; now apply in_map).
    apply (Permutation_in _ (Permutation_sym (sort_by_perm _ _))) in Ha.
    apply (Permutation_in _ (Permutation_sym (sort_by_perm _ _))) in Hb.
    destruct (sort_code_key input a b Ha Hb E) as [E1 [E2 [E3 [Ei Eh]]]].
    apply joined_eq; trivial.
    apply (filter_at_most_one
             (at_key (index_of (the_record a)) (hash (the_record a)))
             (df input)); trivial.
    + unfold at_key. apply andb_true_iff. split;
        [now apply index_eqb_eq | now apply String.eqb_eq].
    + unfold at_key. apply andb_true_iff. split;
        [apply index_eqb_eq; now symmetry
        | apply String.eqb_eq; now symmetry].
Qed.

Lemma unique_keys_perm (d d' : list record) :
  Permutation d d' -> unique_keys d -> unique_keys d'.
Proof.
  intros HP Hu i h. rewrite <- (filter_length_perm _ _ _ HP). apply Hu.
Qed.

Lemma df_perm_perm (input input' : list record) :
  Permutation input input' -> Permutation (df input) (df input').
Proof.
  intro HP. rewrite !df_normalize. apply Permutation_map.
  rewrite <- !sort_by_perm. apply joins_perm.
  now repeat apply Permutation_map.
Qed.

End OrderIndependence.

(** X16.  The report does not depend on the order of the input records:
    two inputs that are permutations of each other give the same run, the
    same frames printed and the same error, if any. *)
Theorem report_is_order_independent {F : Type} (lme : list Q -> F)
    (input input' : list Aggregator.record) :
  Permutation input input' ->
  Aggregator.main lme input = Aggregator.main lme input'.
Proof.
  intro HP. destruct input as [|r l].
  - apply Permutation_nil in HP. now subst.
  - assert (Hne : input' <> []).
    { intros ->. apply Permutation_sym, Permutation_nil in HP.
      discriminate HP. }
    rewrite (main_nonempty lme (r :: l)) by discriminate.
    rewrite (main_nonempty lme input' Hne).
    unfold Aggregator.report.
    destruct (Aggregator.pivot (Aggregator.df (r :: l))) as [t|e] eqn:E.
    + pose proof (pivot_ok_unique_keys _ _ E) as Hu.
      rewrite (df_perm _ _ HP Hu). now rewrite E.
    + destruct (Aggregator.pivot (Aggregator.df input')) as [t'|e'] eqn:E'.
      * pose proof (pivot_ok_unique_keys _ _ E') as Hu'.
        rewrite (df_perm _ _ (Permutation_sym HP) Hu') in E.
        rewrite E' in E. discriminate E.
      * apply pivot_raise_only in E, E'. now subst.
Qed.

Lemma report_is_order_independent_witness :
  Aggregator.main Scenario.column_itself Scenario.two_groups
  = Aggregator.main Scenario.column_itself (rev Scenario.two_groups).
Proof.
  apply (report_is_order_independent Scenario.column_itself
           Scenario.two_groups (rev Scenario.two_groups)).
  apply Permutation_rev.
Defined.

Section RankTotal.

Lemma list_sum_not_below (a : Q) (f : Q -> nat) (l : list Q) :
  (list_sum (map (fun y => (if Qle_bool a y then 1 else 0) + f y) l)
   + count_lt a l
   = List.length l + list_sum (map f l))%nat.
Proof.
  induction l as [|y l IH]; [reflexivity|].
  simpl map. simpl list_sum. simpl List.length. rewrite count_lt_cons.
  unfold lt at 1. destruct (Qle_bool a y); cbn [negb]; lia.
Qed.

(** Counting the pairs of two columns: each pair is either one where the
    entry of the second is below the entry of the first, or one where the
    entry of the first is not above the entry of the second. *)
Lemma count_pairs (l1 l2 : list Q) :
  (list_sum (map (fun x => count_lt x l2) l1)
   + list_sum (map (fun y => count_le y l1) l2)
   = List.length l1 * List.length l2)%nat.
Proof.
  induction l1 as [|a l1 IH].
  - simpl. induction l2 as [|y l2 IH2]; [reflexivity|]. simpl. exact IH2.
  - simpl map. simpl list_sum. simpl List.length.
    rewrite (map_ext (fun y => count_le y (a :: l1))
                     (fun y => ((if Qle_bool a y then 1 else 0)
                                + count_le y l1)%nat))
      by (intro y; apply count_le_cons).
    pose proof (list_sum_not_below a (fun y => count_le y l1) l2).
    lia.
Qed.

Lemma list_sum_plus {A : Type} (f g : A -> nat) (l : list A) :
  list_sum (map (fun x => (f x + g x)%nat) l)
  = (list_sum (map f l) + list_sum (map g l))%nat.
Proof.
  induction l as [|x l IH]; [reflexivity|]. simpl. rewrite IH. lia.
Qed.

Lemma sum_of_halves (f : Q -> Q) (h : Q -> nat) (l : list Q) :
  (forall x, In x l -> f x == (N2Q (h x) + 1) * (1 # 2)) ->
  Pl.sum (map f l)
  == (N2Q (list_sum (map h l)) + N2Q (List.length l)) * (1 # 2).
Proof.
  induction l as [|x l IH]; intro H.
  - simpl. reflexivity.
  - simpl map. simpl Pl.sum. simpl list_sum. simpl List.length.
    rewrite (H x (or_introl eq_refl)), IH
      by (intros y Hy; apply H; now right).
    rewrite N2Q_add, N2Q_S. ring.
Qed.

Lemma count_eq_in (x : Q) (l : list Q) :
  In x l -> (1 <= count_eq x l)%nat.
Proof.
  intro H. apply (filter_length_pos _ _ x H). apply Qeq_bool_iff. reflexivity.
Qed.

End RankTotal.

(** X17.  The ranks given inside a column of [n] values always add up to
    [n (n + 1) / 2], ties or not: the average tie-break shares the ordinal
    ranks 1 to [n] out and loses none. *)
Theorem ranks_add_up (col : list Q) :
  Pl.sum (map (Pl.rank col) col)
  == N2Q (List.length col) * (N2Q (List.length col) + 1) / 2.
Proof.
  rewrite (sum_of_halves _ (fun x => (count_lt x col + count_le x col)%nat)).
  - rewrite list_sum_plus, count_pairs.
    unfold N2Q. rewrite Nat2Z.inj_mul, inject_Z_mult. field.
  - intros x Hx. rewrite (rank_closed_form _ _ (count_eq_in _ _ Hx)).
    rewrite count_le_split, !N2Q_add. field.
Qed.

Section Registered.

Import Aggregator.

Lemma df_labels (input : list record) (r : record) :
  In r (df input) ->
  In (distr r) distr_order /\ In (bench r) bench_order /\
  In (hash r) hash_order.
Proof.
  rewrite df_normalize. intro H. apply in_map_iff in H.
  destruct H as [j [<- Hj]].
  apply (Permutation_in _ (Permutation_sym (sort_by_perm _ _))) in Hj.
  now apply joins_labels in Hj.
Qed.

End Registered.

(** X18.  The report holds registered names only: every column of the
    table is a name of the hash ordering list and every row index a pair of
    names of the distr and bench ordering lists, so the table has at most
    5 columns and 64 rows. *)
Theorem report_holds_registered_names {F : Type} (lme : list Q -> F)
    (input : list Aggregator.record)
    (t : Aggregator.pivot_table) (s : list (Aggregator.summary_row F)) :
  Aggregator.main lme input
  = ([Aggregator.Table t; Aggregator.Summary s], None) ->
  incl (Aggregator.columns t) Aggregator.hash_order /\
  incl (map fst (Aggregator.rows t))
       (list_prod Aggregator.distr_order Aggregator.bench_order) /\
  (List.length (Aggregator.columns t) <= 5)%nat /\
  (List.length (Aggregator.rows t) <= 64)%nat.
Proof.
  intro Hm. apply main_ok in Hm. destruct Hm as [Hp _].
  rewrite (pivot_ok_table _ _ Hp).
  cbn [Aggregator.columns Aggregator.rows].
  set (d := Aggregator.df input).
  set (cols := Pl.unique String.eqb (map Aggregator.hash d)).
  set (idxs := Pl.unique Aggregator.index_eqb (map Aggregator.index_of d)).
  assert (Hc : cols = Pl.unique String.eqb (map Aggregator.hash d))
    by reflexivity.
  assert (Nc : NoDup cols) by apply unique_NoDup, String.eqb_eq.
  assert (Hr : map fst (map (fun i => (i, map (cell_value d i) cols)) idxs)
               = idxs)
    by (rewrite map_map; simpl; apply map_id).
  assert (Nr : NoDup idxs) by apply unique_NoDup, index_eqb_eq.
  rewrite Hr.
  assert (Ic : incl cols Aggregator.hash_order).
  { intros h Hh. apply unique_in in Hh; [|apply String.eqb_eq].
    apply in_map_iff in Hh. destruct Hh as [r [<- Hin]].
    now apply (df_labels input r). }
  assert (Ir : incl idxs
                 (list_prod Aggregator.distr_order Aggregator.bench_order)).
  { intros i Hi. apply unique_in in Hi; [|apply index_eqb_eq].
    apply in_map_iff in Hi. destruct Hi as [r [<- Hin]].
    unfold Aggregator.index_of. apply in_prod; now apply (df_labels input r). }
  split; [exact Ic|]. split; [exact Ir|]. split.
  - apply (NoDup_incl_length Nc) in Ic. exact Ic.
  - apply (NoDup_incl_length Nr) in Ir.
    rewrite length_map. exact Ir.
Qed.

Lemma report_holds_registered_names_witness :
  exists t s,
    Aggregator.main Scenario.column_itself Scenario.two_groups
    = ([Aggregator.Table t; Aggregator.Summary s], None) /\
    (List.length (Aggregator.columns t) <= 5)%nat.
Proof.
  assert (Hm : exists t,
            Aggregator.main Scenario.column_itself Scenario.two_groups
            = ([Aggregator.Table t;
                Aggregator.Summary
                  (Aggregator.summary Scenario.column_itself
                     (Aggregator.df Scenario.two_groups))], None)).
  { eexists. apply main_of_pivot; [vm_compute; discriminate|].
    vm_compute. reflexivity. }
  destruct Hm as [t Hm].
  exists t, (Aggregator.summary Scenario.column_itself
               (Aggregator.df Scenario.two_groups)).
  split; [exact Hm|].
  apply (report_holds_registered_names _ _ _ _ Hm).
Defined.
